(** * aw-webui, src/electron/manager.ts: module discovery and supervision

    A shallow embedding of the [Module] and [Manager] classes.  The file
    system, the child processes and the console are explicit values; the
    order in which concurrent file-system callbacks complete is an explicit
    oracle ([schedule]), so that every statement below is about all
    completion orders unless it fixes one. *)

From Stdlib Require Import ZArith Lia Ascii String List.
From stdpp Require Import list strings pretty.
Import ListNotations.

Open Scope string_scope.
Open Scope list_scope.
Open Scope nat_scope.

Set Warnings "-register-all".

(** ** Strings *)

(** [s.includes(sub)] *)
Fixpoint includes (s sub : string) : bool :=
  String.prefix sub s
  || match s with
     | EmptyString => false
     | String _ s' => includes s' sub
     end.

(** [file.match(/aw-(server|watcher)/)]: the pattern is not anchored. *)
Definition matches_pattern (file : string) : bool :=
  includes file "aw-server" || includes file "aw-watcher".

(** [path.join(dir, file)] for a normalised, non-empty [dir] and a file
    name as [readdir] lists them. *)
Definition path_join (dir file : string) : string :=
  dir +:+ "/" +:+ file.

(** [`${array}`]: the elements joined by commas. *)
Fixpoint join_comma (l : list string) : string :=
  match l with
  | [] => ""
  | [x] => x
  | x :: r => x +:+ "," +:+ join_comma r
  end.

(** ** Console *)

Inductive level := LOG | WARN | ERROR.

Definition line : Type := level * string.

Definition is_error (l : line) : bool :=
  match fst l with ERROR => true | _ => false end.

(** ** Errors *)

Inductive errno := ENOENT | ENOTDIR | EACCES | ELOOP | EIO.

Definition errno_name (e : errno) : string :=
  match e with
  | ENOENT => "ENOENT" | ENOTDIR => "ENOTDIR" | EACCES => "EACCES"
  | ELOOP => "ELOOP" | EIO => "EIO"
  end.

(** ** Child processes *)

Inductive exn :=
| TypeError (msg : string)
| SpawnFailure (e : errno).

Inductive result (A : Type) :=
| Ok (a : A)
| Throw (e : exn).
Arguments Ok {A} a.
Arguments Throw {A} e.

(** How the operating system answers [spawn(this.path, args)]: a child now
    runs; or [spawn] returns a [ChildProcess] that never ran and emits
    ['error'] afterwards; or [spawn] throws. *)
Inductive spawn_outcome :=
| Launched
| FailsLater (e : errno)
| Throws (e : errno).

Record ChildProcess := mkChild {
  spawnfile : string;
  spawnargs : list string;
  launched : bool;                 (* it has a pid *)
  exitCode : option Z;
  signalCode : option string;
  killed : bool
}.

Definition alive (p : ChildProcess) : bool :=
  launched p
  && match exitCode p, signalCode p with None, None => true | _, _ => false end.

(** [subprocess.kill()]: SIGTERM is sent to a live process; on a process
    that has exited, or never ran, it does nothing. *)
Definition kill (p : ChildProcess) : ChildProcess :=
  if alive p then
    mkChild (spawnfile p) (spawnargs p) (launched p) (exitCode p) (signalCode p) true
  else p.

(** ** Modules *)

Inductive ModuleType := system | bundled.

Definition ModuleType_eqb (a b : ModuleType) : bool :=
  match a, b with
  | system, system | bundled, bundled => true
  | _, _ => false
  end.

(** [class Module]; [process] is [None] while the field is unset: the
    constructor assigns [name], [path] and [type] only. *)
Record Module_ := mkModule {
  name : string;
  path : string;
  type : ModuleType;
  process : option ChildProcess
}.

Definition new_Module (nm _path : string) (ty : ModuleType) : Module_ :=
  {| name := nm; path := _path; type := ty; process := None |}.

(** ** File system *)

(** What a path denotes, as [fs.stat], [fs.readdir] and [fs.access] see it
    (symbolic links followed). *)
Inductive node :=
| File (x_ok : bool)                      (* regular file, with or without X_OK *)
| Dir (entries : list (string * node))    (* directory that can be listed *)
| NoList (e : errno)                      (* directory whose listing fails *)
| Special                                 (* socket, fifo, device *)
| NoStat (e : errno).                     (* stat fails: nothing there, dangling link *)

Definition absent : node := NoStat ENOENT.

Inductive Stats := IsFile | IsDirectory | IsOther.

Definition stat (n : node) : errno + Stats :=
  match n with
  | File _ => inr IsFile
  | Dir _ | NoList _ => inr IsDirectory
  | Special => inr IsOther
  | NoStat e => inl e
  end.

(** [fs.access(filepath, X_OK)] resolved to a boolean, as the source does
    with [.then(() => true).catch(() => false)]. *)
Definition access_X_OK (n : node) : bool :=
  match n with
  | File x => x
  | Dir _ => true
  | _ => false
  end.

(** The error of [fs.readdir] on anything but a listable directory. *)
Definition readdir_error (n : node) : errno :=
  match n with
  | NoList e | NoStat e => e
  | _ => ENOTDIR
  end.

(** ** Completion order of concurrent callbacks *)

(** [scan_done i]: the instant at which the scan of the [i]-th search-path
    entry completes; [entry_done p]: the instant at which the callback of
    the directory entry at path [p] completes (or rejects); [late_landed]:
    how many pushes of callbacks that outlived the bundled scan have landed
    in its array when [init] reads it. *)
Record schedule := mkSchedule {
  scan_done : nat -> nat;
  entry_done : string -> nat;
  late_landed : nat
}.

Fixpoint insert_by {A} (k : nat) (x : A) (l : list (nat * A)) : list (nat * A) :=
  match l with
  | [] => [(k, x)]
  | (k', y) :: r =>
      if k <=? k' then (k, x) :: l else (k', y) :: insert_by k x r
  end.

(** The tasks in the order in which they complete; tasks completing at the
    same instant keep their list order. *)
Definition by_completion {A} (l : list (nat * A)) : list A :=
  map snd (fold_right (fun '(k, x) acc => insert_by k x acc) [] l).

(** ** discoverModules *)

(** Outcome of one callback of [files.filter(...).map(async file => ...)]. *)
Inductive settled :=
| Fulfilled (pushed : list Module_) (out : list line)
| Rejected (e : errno).

(** Result of one scan: the array as it is when the function returns, what
    callbacks still pending at that moment push into the same array later,
    and the console output. *)
Record scan := mkScan {
  returned : list Module_;
  late : list Module_;
  output : list line
}.

(** [await Promise.all(...)] inside [try]: pushes accumulate in completion
    order until the first rejection, which is what [catch] receives. *)
Fixpoint until_rejected (cbs : list settled) (modules : list Module_) (out : list line)
  : list Module_ * list line * option (errno * list settled) :=
  match cbs with
  | [] => (modules, out, None)
  | Fulfilled ms o :: rest => until_rejected rest (modules ++ ms) (out ++ o)
  | Rejected e :: rest => (modules, out, Some (e, rest))
  end.

(** Pushes and output of the callbacks that outlive the rejection. *)
Fixpoint stragglers (cbs : list settled) : list Module_ * list line :=
  match cbs with
  | [] => ([], [])
  | Fulfilled ms o :: rest =>
      let '(ms', o') := stragglers rest in (ms ++ ms', o ++ o')
  | Rejected _ :: rest => stragglers rest
  end.

Definition unexpected (e : errno) : line :=
  (ERROR, "Could not list the directory due to unexpected error: " +:+ errno_name e).

Definition after_all (cbs : list settled) : scan :=
  match until_rejected cbs [] [] with
  | (modules, out, None) => mkScan modules [] out
  | (modules, out, Some (ENOENT, rest)) =>
      (* return []: a fresh array, the pushes are lost *)
      mkScan [] [] (out ++ snd (stragglers rest))
  | (modules, out, Some (e, rest)) =>
      (* return modules: the array the pending callbacks still push into *)
      mkScan modules (fst (stragglers rest)) (out ++ [unexpected e] ++ snd (stragglers rest))
  end.

Fixpoint discoverModules (sch : schedule) (dir : string) (n : node) (ty : ModuleType)
  {struct n} : scan :=
  match n with
  | Dir files =>
      let callbacks :=
        (fix each (fs : list (string * node)) : list (nat * settled) :=
           match fs with
           | [] => []
           | (file, c) :: rest =>
               if matches_pattern file then
                 let filepath := path_join dir file in
                 (entry_done sch filepath,
                  match stat c with
                  | inl e => Rejected e
                  | inr IsFile =>
                      if access_X_OK c then
                        Fulfilled [new_Module file filepath ty]
                                  [(LOG, "Found module " +:+ file)]
                      else Fulfilled [] []
                  | inr IsDirectory =>
                      let sub := discoverModules sch filepath c ty in
                      Fulfilled (returned sub) (output sub)
                  | inr IsOther =>
                      Fulfilled [] [(WARN, "Not a file, and not a dir?")]
                  end) :: each rest
               else each rest
           end) files in
      after_all (by_completion callbacks)
  | _ =>
      match readdir_error n with
      | ENOENT => mkScan [] [] []
      | e => mkScan [] [] [unexpected e]
      end
  end.

(** ** The host: what the process inherits *)

Record host := mkHost {
  bundlepath : string;            (* path.join(__static, '../modules') *)
  PATH : list string;             (* process.env.PATH.split(path.delimiter) *)
  disk : string -> node           (* what each directory path denotes *)
}.

(** ** discoverSystemModules and discoverBundledModules *)

(** [if (!modules.map(mm => mm.name).includes(m.name)) modules.push(m)] *)
Definition add_unless_known (modules : list Module_) (m : Module_) : list Module_ :=
  if existsb (String.eqb (name m)) (map name modules) then modules
  else modules ++ [m].

(** [foundModules.forEach(...)] *)
Definition merge_found (modules found : list Module_) : list Module_ :=
  fold_left add_unless_known found modules.

(** The per-directory scans in the order in which they complete. *)
Definition system_scans (hst : host) (sch : schedule) : list scan :=
  by_completion
    (imap (fun i p => (scan_done sch i, discoverModules sch p (disk hst p) system))
          (PATH hst)).

Definition discoverSystemModules (hst : host) (sch : schedule)
  : list Module_ * list line :=
  let scans := system_scans hst sch in
  let modules := fold_left (fun modules sc => merge_found modules (returned sc)) scans [] in
  (modules,
   concat (map output scans)
   ++ [(LOG, join_comma (map path modules));
       (LOG, "Found " +:+ pretty (length modules) +:+ " modules in system: "
             +:+ join_comma (map name modules))]).

Definition discoverBundledModules (hst : host) (sch : schedule) : scan :=
  let sc := discoverModules sch (bundlepath hst) (disk hst (bundlepath hst)) bundled in
  mkScan (returned sc) (late sc)
         (output sc
          ++ [(LOG, "Found " +:+ pretty (length (returned sc)) +:+ " modules in bundle: "
                    +:+ join_comma (map name (returned sc)))]).

(** ** Notifications *)

(** What the operating system reports about a child. *)
Inductive notification :=
| ExitsWith (code : Z)             (* the process ended with an exit code *)
| KilledBy (signal : string)       (* the process was terminated by a signal *)
| LaunchError (e : errno)          (* the deferred failure of spawn *)
| Stdout (d : string)
| Stderr (d : string).

(** ** The console and uncaught exceptions *)

Record World := mkWorld {
  console : list line;
  uncaught : list exn
}.

Definition say (lv : level) (s : string) (w : World) : World :=
  mkWorld (console w ++ [(lv, s)]) (uncaught w).

Definition says (ls : list line) (w : World) : World :=
  mkWorld (console w ++ ls) (uncaught w).

Definition crash (e : exn) (w : World) : World :=
  mkWorld (console w) (uncaught w ++ [e]).

(** ** Module: start, stop, toggle, running *)

Definition set_process (m : Module_) (p : ChildProcess) : Module_ :=
  mkModule (name m) (path m) (type m) (Some p).

(** [start()]: the assignment to [this.process] happens only when [spawn]
    returns; what [spawn] throws is caught and printed.  [testing] is the
    constant [TESTING], [process.argv.includes('--testing')]. *)
Definition Module_start (testing : bool) (o : spawn_outcome) (w : World) (m : Module_)
  : World * Module_ :=
  let w := say LOG ("Starting " +:+ name m
                    +:+ (if testing then " (in testing mode)" else "")) w in
  let args := if testing then ["--testing"] else [] in
  match o with
  | Launched => (w, set_process m (mkChild (path m) args true None None false))
  | FailsLater _ => (w, set_process m (mkChild (path m) args false None None false))
  | Throws e =>
      (say ERROR ("ERROR " +:+ name m +:+ ": Error: spawn " +:+ errno_name e) w, m)
  end.

(** [running()]: reads [this.process.signalCode], whatever [this.process]
    is. *)
Definition Module_running (m : Module_) : result bool :=
  match process m with
  | None => Throw (TypeError "Cannot read properties of undefined (reading 'signalCode')")
  | Some p =>
      match signalCode p with
      | None => Ok true
      | Some _ => Ok false
      end
  end.

Definition Module_stop (w : World) (m : Module_) : result (World * Module_) :=
  match Module_running m with
  | Throw e => Throw e
  | Ok true =>
      match process m with
      | Some p => Ok (w, set_process m (kill p))
      | None => Throw (TypeError "Cannot read properties of undefined (reading 'kill')")
      end
  | Ok false => Ok (say WARN "Module wasn't running, cannot stop." w, m)
  end.

Definition Module_toggle (testing : bool) (o : spawn_outcome) (w : World) (m : Module_)
  : result (World * Module_) :=
  match Module_running m with
  | Throw e => Throw e
  | Ok true => Module_stop w m
  | Ok false => Ok (Module_start testing o w m)
  end.

(** A notification about the process [this.process] refers to, with the
    listeners [start] registered: ['close'] and the two ['data'] listeners
    print; there is no ['error'] listener, so that event is thrown. *)
Definition notify (ev : notification) (w : World) (m : Module_) : World * Module_ :=
  match process m with
  | None => (w, m)
  | Some p =>
      match ev with
      | ExitsWith c =>
          if alive p then
            (say LOG ("Module " +:+ name m +:+ " exited with code " +:+ pretty c) w,
             set_process m (mkChild (spawnfile p) (spawnargs p) (launched p)
                                    (Some c) None (killed p)))
          else (w, m)
      | KilledBy s =>
          if alive p then
            (say LOG ("Module " +:+ name m +:+ " exited with code null") w,
             set_process m (mkChild (spawnfile p) (spawnargs p) (launched p)
                                    None (Some s) (killed p)))
          else (w, m)
      | LaunchError e =>
          if launched p then (w, m) else (crash (SpawnFailure e) w, m)
      | Stdout d => (say LOG ("stdout: " +:+ d) w, m)
      | Stderr d => (say ERROR ("stderr: " +:+ d) w, m)
      end
  end.

(** One module under a sequence of supervisor calls and notifications; an
    exception a call throws reaches the caller and is recorded. *)
Inductive op :=
| Start (o : spawn_outcome)
| Stop
| Toggle (o : spawn_outcome)
| Notify (ev : notification).

Definition step (testing : bool) (o : op) (st : World * Module_) : World * Module_ :=
  let '(w, m) := st in
  match o with
  | Start o => Module_start testing o w m
  | Stop =>
      match Module_stop w m with Ok st' => st' | Throw e => (crash e w, m) end
  | Toggle o =>
      match Module_toggle testing o w m with Ok st' => st' | Throw e => (crash e w, m) end
  | Notify ev => notify ev w m
  end.

Definition run (testing : bool) (ops : list op) (st : World * Module_) : World * Module_ :=
  fold_left (fun st o => step testing o st) ops st.

(** ** Manager *)

(** [modules] is [None] until [init] assigns it. *)
Record Manager := mkManager {
  modules : option (list Module_);
  to_autostart : list string
}.

Definition new_Manager (autostart : list string) : Manager :=
  mkManager None autostart.

(** Arrays hold references: an element is known by its position in
    [this.modules]. *)
Definition refs (ms : list Module_) : list (nat * Module_) :=
  imap (fun i m => (i, m)) ms.

(** [.find(m => m.name == name)] *)
Definition find_named (nm : string) (l : list (nat * Module_)) : option (nat * Module_) :=
  List.find (fun r => String.eqb (name (snd r)) nm) l.

(** [this.modules.filter(m => m.type == 'bundled').find(...) ||
     this.modules.find(...)] *)
Definition resolve (ms : list Module_) (nm : string) : option (nat * Module_) :=
  match find_named nm
          (List.filter (fun r => ModuleType_eqb (type (snd r)) bundled) (refs ms)) with
  | Some r => Some r
  | None => find_named nm (refs ms)
  end.

(** [start(name)]; [launch] is the answer of the operating system for each
    executable path. *)
Definition Manager_start (testing : bool) (launch : string -> spawn_outcome)
  (nm : string) (st : World * Manager) : result (World * Manager) :=
  let '(w, mgr) := st in
  match modules mgr with
  | None => Throw (TypeError "Cannot read properties of undefined (reading 'filter')")
  | Some ms =>
      match resolve ms nm with
      | Some (i, m) =>
          let '(w', m') := Module_start testing (launch (path m)) w m in
          Ok (w', mkManager (Some (<[i := m']> ms)) (to_autostart mgr))
      | None =>
          Ok (say ERROR ("Module " +:+ nm +:+ " could not be started") w, mgr)
      end
  end.

(** Whether [start(nm)] comes to its [await]: it does when it has found a
    module ([await mod.start()]); on an unknown name it prints and returns,
    and when [this.modules] is unset it throws, both without suspending. *)
Definition Manager_start_awaits (nm : string) (st : World * Manager) : bool :=
  match modules (snd st) with
  | Some ms =>
      match resolve ms nm with
      | Some _ => true
      | None => false
      end
  | None => false
  end.

(** Ghost record of the calls of [this.start] and of the settlement of the
    promises they return. *)
Inductive mark :=
| Issued (nm : string)
| Settled (nm : string)        (* fulfilled *)
| Refused (nm : string).       (* rejected *)

(** [names.map(async n => { await this.start(n); })]: every callback runs
    its call of [this.start] when [map] invokes it, in list order.  A call
    that returns or throws without reaching an [await] leaves its promise
    settled at once, before the next call is made; a call that suspends at
    its [await] has its promise fulfilled in a later microtask, after [map]
    has made all the calls, in the order in which the calls suspended.
    The result is the state, the marks written while [map] runs, and the
    marks of the microtasks that follow. *)
Fixpoint call_each {S} (call : string -> S -> result S) (awaits : string -> S -> bool)
  (names : list string) (s : S) : S * list mark * list mark :=
  match names with
  | [] => (s, [], [])
  | n :: rest =>
      match call n s with
      | Ok s' =>
          let '(s2, now, later) := call_each call awaits rest s' in
          if awaits n s then (s2, Issued n :: now, Settled n :: later)
          else (s2, Issued n :: Settled n :: now, later)
      | Throw _ =>
          let '(s2, now, later) := call_each call awaits rest s in
          (s2, Issued n :: Refused n :: now, later)
      end
  end.

Definition fulfilled (k : mark) : bool :=
  match k with Refused _ => false | _ => true end.

(** [await Promise.all(...)]: resumes once every promise is fulfilled, or
    throws when one is rejected. *)
Definition await_all {S} (call : string -> S -> result S) (awaits : string -> S -> bool)
  (names : list string) (s : S) : S * list mark * bool :=
  let '(s', now, later) := call_each call awaits names s in
  (s', now ++ later, forallb fulfilled (now ++ later)).

Definition is_server (nm : string) : bool := includes nm "aw-server".

Definition Manager_autostart (testing : bool) (launch : string -> spawn_outcome)
  (st : World * Manager) : World * Manager * list mark * bool :=
  let '(w, mgr) := st in
  if length (to_autostart mgr) =? 0 then
    (say LOG "No modules to autostart" w, mgr, [], true)
  else
    let w := say LOG ("Autostarting modules: " +:+ join_comma (to_autostart mgr)) w in
    (* Start servers first *)
    let '(st1, j1, ok1) :=
      await_all (Manager_start testing launch) Manager_start_awaits
                (List.filter is_server (to_autostart mgr)) (w, mgr) in
    if ok1 then
      (* Start the rest of the modules *)
      let '(st2, j2, ok2) :=
        await_all (Manager_start testing launch) Manager_start_awaits
                  (List.filter (fun nm => negb (is_server nm)) (to_autostart mgr)) st1 in
      (st2, j1 ++ j2, ok2)
    else (st1, j1, false).

(** [init()]: [this.modules] is tested for truthiness; an array, even an
    empty one, is truthy. *)
Definition Manager_init (hst : host) (sch : schedule) (st : World * Manager)
  : World * Manager :=
  let '(w, mgr) := st in
  match modules mgr with
  | Some _ =>
      (say ERROR "Manager.init() can only be called once. Remove extra call." w, mgr)
  | None =>
      let w := say LOG "Searching for modules in bundle" w in
      let b := discoverBundledModules hst sch in
      let w := says (output b) w in
      let w := say LOG "Searching for modules in PATH" w in
      let '(modulesSystem, out) := discoverSystemModules hst sch in
      let w := says out w in
      (* the bundled array is read here, after the system scans *)
      let modulesBundled := returned b ++ firstn (late_landed sch) (late b) in
      (w, mkManager (Some (modulesBundled ++ modulesSystem)) (to_autostart mgr))
  end.

(** ** Command line: TESTING and AUTOSTART *)

(** [s.split(sep)] for a one-character separator: the empty string gives
    one empty piece. *)
Fixpoint split_on (sep : ascii) (s : string) : list string :=
  match s with
  | EmptyString => [EmptyString]
  | String c r =>
      if Ascii.eqb c sep then EmptyString :: split_on sep r
      else match split_on sep r with
           | x :: xs => String c x :: xs
           | [] => [String c EmptyString]
           end
  end.

(** [array.indexOf(x)]: the first position of [x], or -1. *)
Fixpoint indexOf (x : string) (l : list string) : Z :=
  match l with
  | [] => (-1)%Z
  | y :: r =>
      if String.eqb y x then 0%Z
      else match indexOf x r with
           | Zneg _ => (-1)%Z
           | i => (i + 1)%Z
           end
  end.

(** [array[i]] for an integer [i]: [None] is [undefined]. *)
Definition at_index (l : list string) (i : Z) : option string :=
  match i with
  | Zneg _ => None
  | _ => l !! Z.to_nat i
  end.

(** [process.argv.includes('--testing')] *)
Definition TESTING (argv : list string) : bool :=
  existsb (String.eqb "--testing") argv.

(** [AUTOSTART]: the value after the first [--autostart], split at commas,
    empty names dropped; nothing after the flag makes [.split] throw while
    the file is loaded. *)
Definition AUTOSTART (argv : list string) : result (list string) :=
  if existsb (String.eqb "--autostart") argv then
    match at_index argv (indexOf "--autostart" argv + 1) with
    | Some v => Ok (List.filter (fun m => negb (String.eqb m "")) (split_on "," v))
    | None => Throw (TypeError "Cannot read properties of undefined (reading 'split')")
    end
  else Ok [].

(** ** findExecutable *)

(** [envPath.replace(...)] with the pattern of the source: every double
    quote character (code 34) is removed. *)
Fixpoint remove_quotes (s : string) : string :=
  match s with
  | EmptyString => EmptyString
  | String c r =>
      if Ascii.eqb c "034" then remove_quotes r else String c (remove_quotes r)
  end.

(** The environment [findExecutable] reads: [path.delimiter],
    [process.env.PATH] and [process.env.PATHEXT] ([None] when unset), and
    what each path denotes. *)
Record lookup_env := mkLookupEnv {
  delimiter : ascii;
  env_PATH : option string;
  env_PATHEXT : option string;
  denoted : string -> node
}.

(** [x || ''] on an environment variable: unset and empty both give ['']. *)
Definition or_empty (x : option string) : string :=
  match x with
  | Some v => v
  | None => ""
  end.

Definition pathDirs (env : lookup_env) : list string :=
  List.filter (fun d => negb (String.eqb d ""))
              (split_on (delimiter env) (remove_quotes (or_empty (env_PATH env)))).

Definition extensions (env : lookup_env) : list string :=
  split_on ";" (or_empty (env_PATHEXT env)).

(** [pathDirs.flatMap(d => extensions.map(ext => path.join(d, exe + ext)))] *)
Definition candidates (env : lookup_env) (exe : string) : list string :=
  flat_map (fun d => map (fun ext => path_join d (exe +:+ ext)) (extensions env))
           (pathDirs env).

(** [checkFileExists]: fulfilled with the path when [stat] says regular
    file, rejected when [stat] fails or says anything else. *)
Definition checkFileExists (env : lookup_env) (filePath : string) : option string :=
  match stat (denoted env filePath) with
  | inr IsFile => Some filePath
  | _ => None
  end.

(** [Promise.any]: the value of the promise that is fulfilled first, or a
    rejection when none is; [check_done i] is the instant at which the
    check of the [i]-th candidate settles. *)
Definition promise_any {A} (check_done : nat -> nat) (settle : list (option A)) : option A :=
  head (omap id (by_completion (imap (fun i r => (check_done i, r)) settle))).

Definition findExecutable (env : lookup_env) (check_done : nat -> nat) (exe : string)
  : option string :=
  promise_any check_done (map (checkFileExists env) (candidates env exe)).

(** * Statements: predicates and examples *)

(** ** Strings and paths *)

(** [under d loc]: [loc] lies below directory [d]. *)
Definition under (d loc : string) : Prop :=
  exists rest, loc = path_join d rest.

(** [denotes p n q n']: in a file system where path [p] denotes [n], path
    [q] denotes [n']. *)
Inductive denotes : string -> node -> string -> node -> Prop :=
| denotes_here p n : denotes p n p n
| denotes_entry p entries f c q n :
    In (f, c) entries ->
    denotes (path_join p f) c q n ->
    denotes p (Dir entries) q n.

(** ** Induction on file trees *)

Section NodeInd.
Variable P : node -> Prop.
Hypothesis HFile : forall x, P (File x).
Hypothesis HDir : forall entries, Forall (fun e => P (snd e)) entries -> P (Dir entries).
Hypothesis HNoList : forall e, P (NoList e).
Hypothesis HSpecial : P Special.
Hypothesis HNoStat : forall e, P (NoStat e).

Fixpoint node_tree_ind (n : node) : P n :=
  match n with
  | File x => HFile x
  | Dir entries =>
      HDir entries
        ((fix all (l : list (string * node)) : Forall (fun e => P (snd e)) l :=
            match l with
            | [] => @List.Forall_nil _ _
            | e :: r => @List.Forall_cons _ _ e r (node_tree_ind (snd e)) (all r)
            end) entries)
  | NoList e => HNoList e
  | Special => HSpecial
  | NoStat e => HNoStat e
  end.
End NodeInd.

(** ** The callbacks of one scan, as the source writes them *)

(** The body of [async file => ...] for the entry [file], which denotes
    [c]. *)
Definition callback (sch : schedule) (dir : string) (ty : ModuleType)
  (file : string) (c : node) : nat * settled :=
  let filepath := path_join dir file in
  (entry_done sch filepath,
   match stat c with
   | inl e => Rejected e
   | inr IsFile =>
       if access_X_OK c then
         Fulfilled [new_Module file filepath ty] [(LOG, "Found module " +:+ file)]
       else Fulfilled [] []
   | inr IsDirectory =>
       let sub := discoverModules sch filepath c ty in
       Fulfilled (returned sub) (output sub)
   | inr IsOther => Fulfilled [] [(WARN, "Not a file, and not a dir?")]
   end).

(** [files.filter(file => file.match(...)).map(async file => ...)] *)
Definition callbacks (sch : schedule) (dir : string) (ty : ModuleType)
  (files : list (string * node)) : list (nat * settled) :=
  map (fun e => callback sch dir ty (fst e) (snd e))
      (List.filter (fun e => matches_pattern (fst e)) files).

(** ** What a scan reports *)

(** What [discoverModules] reports about a module found from [dir]. *)
Definition genuine (dir : string) (n : node) (ty : ModuleType) (m : Module_) : Prop :=
  denotes dir n (path m) (File true)
  /\ matches_pattern (name m) = true
  /\ (exists parent, path m = path_join parent (name m))
  /\ under dir (path m)
  /\ type m = ty
  /\ process m = None.

(** ** Merging the system scans *)

(** The modules called [X], in order. *)
Definition named (X : string) (ms : list Module_) : list Module_ :=
  List.filter (fun m => String.eqb (name m) X) ms.

(** A listing none of whose matching entries makes [stat] fail. *)
Definition tidy (files : list (string * node)) : bool :=
  forallb (fun e => negb (matches_pattern (fst e))
                    || match stat (snd e) with inl _ => false | inr _ => true end)
          files.

(** Everything the callbacks push when none of them rejects. *)
Definition pushes (cbs : list settled) : list Module_ :=
  flat_map (fun c => match c with Fulfilled ms _ => ms | Rejected _ => [] end) cbs.

(** ** C1: which of two equally named system modules is kept *)

(** The claim as the specification states it, for search path [[d1; d2]]. *)
Definition first_listed_wins (hst : host) (sch : schedule) (d1 X : string) : Prop :=
  exists m, named X (fst (discoverSystemModules hst sch)) = [m]
            /\ type m = system
            /\ under d1 (path m).

Definition two_copies : host :=
  mkHost "/app/modules" ["/usr/bin"; "/opt/aw"]
    (fun p => if String.eqb p "/usr/bin" then Dir [("aw-server", File true)]
              else if String.eqb p "/opt/aw" then Dir [("aw-server", File true)]
              else absent).

(** The scan of the second directory completes before that of the first. *)
Definition second_scan_first : schedule :=
  mkSchedule (fun i => 1 - i) (fun _ => 0) 0.

(** A directory with an executable [aw-server] and a dangling link whose
    name matches the pattern. *)
Definition with_dangling_link : node :=
  Dir [("aw-server", File true); ("aw-watcher-old", NoStat ENOENT)].

(** ** C7: what the registry holds after [init] *)

(** A regular file with execute permission. *)
Definition executable_file (n : node) : Prop :=
  stat n = inr IsFile /\ access_X_OK n = true.

(** The name begins with one of the two family names. *)
Definition family_prefix (nm : string) : bool :=
  String.prefix "aw-server" nm || String.prefix "aw-watcher" nm.

(** [m] was found below [root], one of the scanned directories. *)
Definition located (hst : host) (m : Module_) : Prop :=
  exists root n,
    In root (bundlepath hst :: PATH hst)
    /\ denotes root (disk hst root) (path m) n
    /\ executable_file n.

Definition stale_copy : host :=
  mkHost "/app/modules" ["/usr/bin"]
    (fun p => if String.eqb p "/usr/bin" then Dir [("old-aw-server.bak", File true)]
              else absent).

Definition in_list_order : schedule := mkSchedule (fun i => i) (fun _ => 0) 0.

Definition fresh_world : World := mkWorld [] [].

(** ** C8: directories that do not exist *)

Definition no_bundle : host :=
  mkHost "/app/modules" ["/nowhere"; "/usr/bin"]
    (fun p => if String.eqb p "/usr/bin" then Dir [("aw-watcher-afk", File true)]
              else absent).

(** ** C10: [init] runs once *)

Definition init_refusal : line :=
  (ERROR, "Manager.init() can only be called once. Remove extra call.").

(** ** C2: which module [start(name)] starts *)

(** What [start(nm)] does once it has picked the module at position [i]. *)
Definition started (testing : bool) (launch : string -> spawn_outcome)
  (w : World) (ms : list Module_) (auto : list string) (i : nat) (m : Module_)
  : result (World * Manager) :=
  Ok (fst (Module_start testing (launch (path m)) w m),
      mkManager (Some (<[i := snd (Module_start testing (launch (path m)) w m)]> ms)) auto).

Definition not_found (nm : string) : line :=
  (ERROR, "Module " +:+ nm +:+ " could not be started").

(** A registry where a system module stands before the bundled module of
    the same name. *)
Definition both_origins : list Module_ :=
  [new_Module "aw-server" "/usr/bin/aw-server" system;
   new_Module "aw-server" "/app/modules/aw-server" bundled;
   new_Module "aw-watcher-afk" "/usr/bin/aw-watcher-afk" system].

(** ** C3: the two phases of [autostart] *)

Definition subject (k : mark) : string :=
  match k with Issued n | Settled n | Refused n => n end.

Definition journal_of (r : World * Manager * list mark * bool) : list mark :=
  snd (fst r).

(** Every call of [start] for a non-server name comes after every call and
    every settlement for a server name. *)
Definition phases_ordered (j : list mark) : Prop :=
  forall i k n mk,
    j !! i = Some (Issued n) -> is_server n = false ->
    j !! k = Some mk -> is_server (subject mk) = true ->
    k < i.

(** The calls [start(n)] for the names of one phase, made one after the
    other in list order; a call that throws leaves the state as it was. *)
Definition perform (testing : bool) (launch : string -> spawn_outcome)
  (names : list string) (st : World * Manager) : World * Manager :=
  fold_left (fun st n =>
               match Manager_start testing launch n st with
               | Ok st' => st'
               | Throw _ => st
               end) names st.

(** What [Module.start] prints for module [m] when [spawn] answers [o]. *)
Definition start_lines (testing : bool) (o : spawn_outcome) (m : Module_) : list line :=
  (LOG, "Starting " +:+ name m +:+ (if testing then " (in testing mode)" else ""))
  :: match o with
     | Throws e => [(ERROR, "ERROR " +:+ name m +:+ ": Error: spawn " +:+ errno_name e)]
     | _ => []
     end.

(** What [start(n)] prints on registry [ms]. *)
Definition lines_of_start (testing : bool) (launch : string -> spawn_outcome)
  (ms : list Module_) (n : string) : list line :=
  match resolve ms n with
  | Some (_, m) => start_lines testing (launch (path m)) m
  | None => [(ERROR, "Module " +:+ n +:+ " could not be started")]
  end.

(** The registry [ms] has a module called [n]. *)
Definition known (ms : list Module_) (n : string) : bool :=
  match resolve ms n with
  | Some _ => true
  | None => false
  end.

(** The journal of one phase on registry [ms]: the calls in list order,
    the promise of an unknown name fulfilled as soon as its call returns,
    the promises of the known names fulfilled after all the calls. *)
Definition phase_journal (ms : list Module_) (names : list string) : list mark :=
  flat_map (fun n => if known ms n then [Issued n] else [Issued n; Settled n]) names
  ++ map Settled (List.filter (known ms) names).

(** Two answers of [resolve] that pick the same position and a module of
    the same identity, or both nothing. *)
Definition same_pick (a b : option (nat * Module_)) : Prop :=
  match a, b with
  | Some (i, m), Some (i', m') => i' = i /\ name m' = name m /\ path m' = path m
                                  /\ type m' = type m
  | None, None => True
  | _, _ => False
  end.

(** ** C4: the process handle and [running()] *)

(** The operating system has reported the end of the process. *)
Definition reported_exit (p : ChildProcess) : bool :=
  match exitCode p, signalCode p with
  | None, None => false
  | _, _ => true
  end.

(** The Running state of the specification: a handle whose process has not
    been reported as exited. *)
Definition Running (m : Module_) : Prop :=
  exists p, process m = Some p /\ reported_exit p = false.

(** The claim as the specification states it. *)
Definition handle_tracks_state (m : Module_) : Prop :=
  (is_Some (process m) <-> Running m)
  /\ (Module_running m = Ok true <-> Running m).

Definition bundled_server : Module_ :=
  new_Module "aw-server" "/app/modules/aw-server" bundled.

(** Started, then the process ends on its own with exit code 0. *)
Definition exited_on_its_own : Module_ :=
  snd (run false [Start Launched; Notify (ExitsWith 0)] (fresh_world, bundled_server)).

(** The calls that attach a process to a module that has none. *)
Definition attaches (o : op) : bool :=
  match o with
  | Start Launched | Start (FailsLater _) => true
  | _ => false
  end.

(** ** C5, C6, C9: a module no [start] has attached a process to *)

Definition no_signalCode : exn :=
  TypeError "Cannot read properties of undefined (reading 'signalCode')".

(** ** Further statements *)

(** The character [sep] does not occur in [s]. *)
Fixpoint no_sep (sep : ascii) (s : string) : bool :=
  match s with
  | EmptyString => true
  | String c r => negb (Ascii.eqb c sep) && no_sep sep r
  end.

(** A name as [AUTOSTART] can return it: not empty, no comma in it. *)
Definition plain_name (n : string) : Prop :=
  n <> "" /\ no_sep "," n = true.

(** A tree in which no entry that a scan looks at makes [stat] fail. *)
Fixpoint clean (n : node) : bool :=
  match n with
  | Dir files =>
      (fix all (fs : list (string * node)) : bool :=
         match fs with
         | [] => true
         | (file, c) :: rest =>
             (negb (matches_pattern file)
              || (match stat c with inl _ => false | inr _ => true end && clean c))
             && all rest
         end) files
  | _ => true
  end.

(** A module keeps its identity: name, path and origin. *)
Definition same_identity (m m' : Module_) : Prop :=
  name m' = name m /\ path m' = path m /\ type m' = type m.

(** [visits dir n f q c]: a scan of [dir], which denotes [n], comes to look
    at the entry named [f] at path [q], which denotes [c]: every name on
    the way down, [f] included, matches the pattern. *)
Inductive visits : string -> node -> string -> string -> node -> Prop :=
| visits_entry dir files f c :
    In (f, c) files ->
    matches_pattern f = true ->
    visits dir (Dir files) f (path_join dir f) c
| visits_below dir files d sub f q c :
    In (d, sub) files ->
    matches_pattern d = true ->
    visits (path_join dir d) sub f q c ->
    visits dir (Dir files) f q c.

(** A bundle directory with a server and, in a matching subdirectory, a
    watcher. *)
Definition small_bundle : node :=
  Dir [("aw-server", File true);
       ("aw-watcher-afk", Dir [("aw-watcher-afk", File true); ("README", File false)])].

(** The entry at ["/app/modules/aw-server"] completes last. *)
Definition server_last : schedule :=
  mkSchedule (fun i => i)
             (fun p => if String.eqb p "/app/modules/aw-server" then 1 else 0) 0.

(** A host whose bundle directory is [small_bundle] and whose search path
    holds one directory with a watcher. *)
Definition bundle_and_path : host :=
  mkHost "/app/modules" ["/usr/bin"]
    (fun p => if String.eqb p "/app/modules" then small_bundle
              else if String.eqb p "/usr/bin" then Dir [("aw-watcher-window", File true)]
              else absent).

(** * Properties *)

(** ** Strings and paths *)

Lemma append_assoc (a b c : string) : (a +:+ b) +:+ c = a +:+ (b +:+ c).
Proof.
  induction a as [|x a IH]; [reflexivity|].
  change (String x ((a +:+ b) +:+ c) = String x (a +:+ b +:+ c)).
  now rewrite IH.
Qed.

Lemma under_join d f : under d (path_join d f).
Proof. now exists f. Qed.

Lemma under_below d f loc : under (path_join d f) loc -> under d loc.
Proof.
  intros [rest ->]. exists (f +:+ "/" +:+ rest).
  unfold path_join. now rewrite !append_assoc.
Qed.

(** ** The callbacks of one scan, as the source writes them *)

Lemma discoverModules_Dir sch dir files ty :
  discoverModules sch dir (Dir files) ty
  = after_all (by_completion (callbacks sch dir ty files)).
Proof.
  simpl. do 2 f_equal. unfold callbacks.
  induction files as [|[file c] rest IH]; simpl; [reflexivity|].
  destruct (matches_pattern file); simpl; [|exact IH].
  unfold callback at 1. simpl. now rewrite IH.
Qed.

(** ** Completion order is a rearrangement *)

Lemma insert_by_In {A} k (x : A) l e :
  In e (insert_by k x l) <-> e = (k, x) \/ In e l.
Proof.
  induction l as [|[k' y] r IH]; simpl.
  - intuition.
  - destruct (k <=? k'); simpl; [intuition|]. rewrite IH. intuition.
Qed.

Lemma by_completion_In {A} (l : list (nat * A)) x :
  In x (by_completion l) <-> In x (map snd l).
Proof.
  unfold by_completion. rewrite !in_map_iff.
  split; intros [e [<- He]]; exists e; split; try reflexivity; revert He;
    induction l as [|[k y] r IH]; simpl; try tauto; rewrite insert_by_In;
    intuition.
Qed.

Lemma by_completion_two {A} k1 k2 (a b : A) :
  by_completion [(k1, a); (k2, b)] = if k1 <=? k2 then [a; b] else [b; a].
Proof. unfold by_completion. simpl. now destruct (k1 <=? k2). Qed.

(** ** What a scan reports *)

Lemma until_rejected_In cbs : forall acc out ms' out' r m,
  until_rejected cbs acc out = (ms', out', r) ->
  In m ms' ->
  In m acc \/ exists ms o, In (Fulfilled ms o) cbs /\ In m ms.
Proof.
  induction cbs as [|[ms o|e] rest IH]; simpl; intros acc out ms' out' r m Heq Hin.
  - injection Heq as <- _ _. now left.
  - destruct (IH _ _ _ _ _ _ Heq Hin) as [Hacc|(ms1 & o1 & H1 & H2)].
    + apply in_app_or in Hacc as [?|?]; [now left|].
      right. exists ms, o. split; [now left | assumption].
    + right. exists ms1, o1. split; [now right | assumption].
  - injection Heq as <- _ _. now left.
Qed.

Lemma until_rejected_rest cbs : forall acc out ms' out' e rest c,
  until_rejected cbs acc out = (ms', out', Some (e, rest)) ->
  In c rest -> In c cbs.
Proof.
  induction cbs as [|[ms o|e'] tl IH]; simpl; intros acc out ms' out' e rest c Heq Hin.
  - discriminate.
  - right. eapply IH; eassumption.
  - injection Heq as _ _ _ <-. now right.
Qed.

Lemma stragglers_In cbs m :
  In m (fst (stragglers cbs)) ->
  exists ms o, In (Fulfilled ms o) cbs /\ In m ms.
Proof.
  induction cbs as [|[ms o|e] rest IH]; simpl; [tauto| |].
  - destruct (stragglers rest) as [ms' o'] eqn:E. simpl in *. intros Hin.
    apply in_app_or in Hin as [?|Hin].
    + exists ms, o. split; [now left | assumption].
    + destruct (IH Hin) as (ms1 & o1 & H1 & H2). exists ms1, o1. split; [now right | assumption].
  - intros Hin. destruct (IH Hin) as (ms1 & o1 & H1 & H2).
    exists ms1, o1. split; [now right | assumption].
Qed.

(** Whatever the completion order and wherever a rejection falls, a module
    in the array comes from a callback that pushed it. *)
Lemma after_all_In cbs m :
  In m (returned (after_all cbs) ++ late (after_all cbs)) ->
  exists ms o, In (Fulfilled ms o) cbs /\ In m ms.
Proof.
  unfold after_all.
  destruct (until_rejected cbs [] []) as [[ms' out'] r] eqn:E.
  assert (Hacc : forall x, In x ms' -> exists ms o, In (Fulfilled ms o) cbs /\ In x ms).
  { intros x Hx. destruct (until_rejected_In _ _ _ _ _ _ _ E Hx) as [[]|H]. exact H. }
  assert (Hlate : forall e rest x, r = Some (e, rest) -> In x (fst (stragglers rest)) ->
                  exists ms o, In (Fulfilled ms o) cbs /\ In x ms).
  { intros e rest x -> Hx. destruct (stragglers_In _ _ Hx) as (ms1 & o1 & H1 & H2).
    exists ms1, o1. split; [|assumption]. eapply until_rejected_rest; eassumption. }
  destruct r as [[e rest]|]; [destruct e|]; simpl; intros Hin;
    try (apply in_app_or in Hin as [Hin|Hin]); try contradiction; eauto.
Qed.

Lemma genuine_below dir files f c ty m :
  In (f, c) files ->
  genuine (path_join dir f) c ty m ->
  genuine dir (Dir files) ty m.
Proof.
  intros Hin (Hd & Hm & Hp & Hu & Ht & Hn). repeat split; try assumption.
  - eapply denotes_entry; eassumption.
  - eapply under_below; eassumption.
Qed.

Lemma discoverModules_genuine n : forall sch dir ty,
  Forall (genuine dir n ty)
         (returned (discoverModules sch dir n ty) ++ late (discoverModules sch dir n ty)).
Proof.
  induction n as [x|files IH|e| |e] using node_tree_ind; intros sch dir ty;
    try (simpl; repeat match goal with e : errno |- _ => destruct e end; constructor).
  rewrite discoverModules_Dir. apply List.Forall_forall. intros m Hin.
  apply after_all_In in Hin as (ms & o & Hcb & Hm).
  apply (proj1 (by_completion_In _ _)) in Hcb. unfold callbacks in Hcb.
  rewrite map_map in Hcb. apply in_map_iff in Hcb as ([f c] & Hcb & Hfc).
  apply filter_In in Hfc as [Hfc Hpat]. simpl in *.
  rewrite List.Forall_forall in IH. specialize (IH _ Hfc). simpl in IH.
  destruct c as [x|sub|e| |e]; simpl in Hcb.
  - destruct x; injection Hcb as <- <-; [|contradiction].
    destruct Hm as [<-|[]]. simpl.
    repeat split; simpl; try assumption; try reflexivity.
    + eapply denotes_entry; [eassumption | apply denotes_here].
    + now exists dir.
    + apply under_join.
  - injection Hcb as <- <-.
    eapply genuine_below; [eassumption|].
    specialize (IH sch (path_join dir f) ty). rewrite List.Forall_forall in IH.
    apply IH. apply in_or_app. now left.
  - injection Hcb as <- <-.
    eapply genuine_below; [eassumption|].
    specialize (IH sch (path_join dir f) ty). rewrite List.Forall_forall in IH.
    apply IH. apply in_or_app. now left.
  - injection Hcb as <- <-. contradiction.
  - discriminate.
Qed.

(** ** Merging the system scans *)

Lemma named_app X a b : named X (a ++ b) = named X a ++ named X b.
Proof. apply List.filter_app. Qed.

Lemma named_In X ms m : In m (named X ms) <-> In m ms /\ name m = X.
Proof. unfold named. rewrite filter_In, String.eqb_eq. tauto. Qed.

Lemma known_named X acc :
  existsb (String.eqb X) (map name acc) = true <-> named X acc <> [].
Proof.
  rewrite existsb_exists. split.
  - intros (y & Hy & Heq) Hnil. apply in_map_iff in Hy as (a & <- & Ha).
    apply String.eqb_eq in Heq.
    assert (In a (named X acc)) by (apply named_In; split; congruence).
    rewrite Hnil in *. contradiction.
  - intros Hne. destruct (named X acc) as [|a l] eqn:E; [congruence|].
    assert (Ha : In a (named X acc)) by (rewrite E; now left).
    apply named_In in Ha as [Ha Hn]. exists (name a). split.
    + now apply in_map.
    + apply String.eqb_eq. congruence.
Qed.

Lemma named_add X acc m :
  named X (add_unless_known acc m)
  = match named X acc with [] => named X [m] | l => l end.
Proof.
  unfold add_unless_known.
  destruct (existsb (String.eqb (name m)) (map name acc)) eqn:E.
  - apply known_named in E. destruct (named X acc) eqn:EX; [|reflexivity].
    simpl. destruct (String.eqb (name m) X) eqn:EN; [|reflexivity].
    apply String.eqb_eq in EN. subst X. congruence.
  - rewrite named_app. destruct (named X acc) eqn:EX; [reflexivity|].
    simpl. destruct (String.eqb (name m) X) eqn:EN; [|now rewrite app_nil_r].
    apply String.eqb_eq in EN. subst X.
    assert (existsb (String.eqb (name m)) (map name acc) = true)
      by (apply known_named; congruence).
    congruence.
Qed.

Lemma named_merge X found : forall acc,
  named X (merge_found acc found)
  = match named X acc with [] => firstn 1 (named X found) | l => l end.
Proof.
  unfold merge_found. induction found as [|m r IH]; intros acc; simpl.
  - now destruct (named X acc).
  - rewrite IH, named_add.
    destruct (named X acc); [|reflexivity].
    simpl. now destruct (String.eqb (name m) X).
Qed.

Lemma first_named_app X a b :
  firstn 1 (named X (a ++ b))
  = match firstn 1 (named X a) with [] => firstn 1 (named X b) | l => l end.
Proof. rewrite named_app. now destruct (named X a). Qed.

Lemma named_scans X scans : forall acc,
  named X (fold_left (fun modules sc => merge_found modules (returned sc)) scans acc)
  = match named X acc with
    | [] => firstn 1 (named X (concat (map returned scans)))
    | l => l
    end.
Proof.
  induction scans as [|sc r IH]; intros acc; simpl.
  - now destruct (named X acc).
  - rewrite IH, named_merge, first_named_app.
    destruct (named X acc); [|reflexivity].
    now destruct (named X (returned sc)).
Qed.

(** Of the system modules called [X], discovery keeps the first one in
    completion order of the scans. *)
Lemma system_first_completed hst sch X :
  named X (fst (discoverSystemModules hst sch))
  = firstn 1 (named X (concat (map returned (system_scans hst sch)))).
Proof. unfold discoverSystemModules. simpl. now rewrite named_scans. Qed.

Lemma until_rejected_all cbs : forall acc out,
  (forall e, ~ In (Rejected e) cbs) ->
  exists out', until_rejected cbs acc out = (acc ++ pushes cbs, out', None).
Proof.
  induction cbs as [|[ms o|e] rest IH]; simpl; intros acc out Hno.
  - exists out. now rewrite app_nil_r.
  - destruct (IH (acc ++ ms) (out ++ o)) as [out' ->].
    + intros e He. apply (Hno e). now right.
    + exists out'. now rewrite <- app_assoc.
  - exfalso. apply (Hno e). now left.
Qed.

Lemma tidy_no_rejection sch dir ty files e :
  tidy files = true ->
  ~ In (Rejected e) (by_completion (callbacks sch dir ty files)).
Proof.
  intros Ht Hin. apply (proj1 (by_completion_In _ _)) in Hin.
  unfold callbacks in Hin. rewrite map_map in Hin.
  apply in_map_iff in Hin as ([f c] & Hcb & Hfc).
  apply filter_In in Hfc as [Hfc Hpat]. simpl in *.
  unfold tidy in Ht. rewrite forallb_forall in Ht. specialize (Ht _ Hfc).
  simpl in Ht. rewrite Hpat in Ht. simpl in Ht.
  destruct c as [[]| | | |]; simpl in *; discriminate.
Qed.

Lemma tidy_reports sch dir ty files X :
  tidy files = true ->
  In (X, File true) files ->
  matches_pattern X = true ->
  In (new_Module X (path_join dir X) ty)
     (returned (discoverModules sch dir (Dir files) ty)).
Proof.
  intros Ht Hin Hpat. rewrite discoverModules_Dir. unfold after_all.
  destruct (until_rejected_all (by_completion (callbacks sch dir ty files)) [] [])
    as [out' ->].
  { intros e. now apply tidy_no_rejection. }
  simpl. unfold pushes. apply in_flat_map.
  exists (Fulfilled [new_Module X (path_join dir X) ty] [(LOG, "Found module " +:+ X)]).
  split; [|now left].
  apply by_completion_In. unfold callbacks. rewrite map_map.
  apply in_map_iff. exists (X, File true). split; [reflexivity|].
  apply filter_In. split; assumption.
Qed.

Lemma merge_found_In found : forall acc m,
  In m (merge_found acc found) -> In m acc \/ In m found.
Proof.
  unfold merge_found. induction found as [|x r IH]; intros acc m; simpl; [tauto|].
  intros Hin. apply IH in Hin as [Hin|Hin]; [|tauto].
  unfold add_unless_known in Hin.
  destruct (existsb _ _); [tauto|]. apply in_app_or in Hin as [?|[<-|[]]]; tauto.
Qed.

Lemma system_scans_In hst sch sc :
  In sc (system_scans hst sch) ->
  exists p, In p (PATH hst) /\ sc = discoverModules sch p (disk hst p) system.
Proof.
  unfold system_scans. intros Hin. apply (proj1 (by_completion_In _ _)) in Hin.
  apply in_map_iff in Hin as ([k sc'] & Heq & Hin). simpl in Heq. subst sc'.
  apply list_elem_of_In, elem_of_lookup_imap in Hin as (i & p & Heq & Hp).
  injection Heq as _ ->. exists p. split; [|reflexivity].
  eapply list_elem_of_In, list_elem_of_lookup_2, Hp.
Qed.

Lemma system_modules_In hst sch m :
  In m (fst (discoverSystemModules hst sch)) ->
  exists p, In p (PATH hst)
            /\ In m (returned (discoverModules sch p (disk hst p) system)).
Proof.
  unfold discoverSystemModules. simpl.
  assert (H : forall scans acc,
             In m (fold_left (fun modules sc => merge_found modules (returned sc)) scans acc) ->
             In m acc \/ exists sc, In sc scans /\ In m (returned sc)).
  { induction scans as [|sc r IH]; intros acc; simpl; [tauto|].
    intros Hin. apply IH in Hin as [Hin|(sc' & H1 & H2)].
    - apply merge_found_In in Hin as [?|?]; [tauto|]. right. exists sc. tauto.
    - right. exists sc'. tauto. }
  intros Hin. apply H in Hin as [[]|(sc & Hsc & Hm)].
  apply system_scans_In in Hsc as (p & Hp & ->). eauto.
Qed.

Lemma returned_two (a b : scan) :
  concat (map returned [a; b]) = returned a ++ returned b.
Proof. simpl. now rewrite app_nil_r. Qed.

(** A [stat] that fails with ENOENT on one entry is taken for a missing
    directory: the scan returns the empty sequence, whatever else the
    directory holds and whatever the completion order. *)
Lemma dangling_link_empties_scan sch dir ty :
  returned (discoverModules sch dir with_dangling_link ty) = [].
Proof.
  unfold with_dangling_link. rewrite discoverModules_Dir.
  unfold callbacks, callback. simpl. rewrite by_completion_two.
  now destruct (_ <=? _).
Qed.

(** ** C1: which of two equally named system modules is kept *)

(** C1, counterexample: both ["/usr/bin"] and ["/opt/aw"] hold an
    executable [aw-server]; when the scan of ["/opt/aw"] completes first,
    the one system module called [aw-server] is ["/opt/aw/aw-server"],
    which is not under the first directory of the search path. *)
Lemma dedup_not_by_list_position :
  PATH two_copies = ["/usr/bin"; "/opt/aw"]
  /\ disk two_copies "/usr/bin" = Dir [("aw-server", File true)]
  /\ disk two_copies "/opt/aw" = Dir [("aw-server", File true)]
  /\ matches_pattern "aw-server" = true
  /\ named "aw-server" (fst (discoverSystemModules two_copies second_scan_first))
     = [new_Module "aw-server" "/opt/aw/aw-server" system]
  /\ ~ first_listed_wins two_copies second_scan_first "/usr/bin" "aw-server".
Proof.
  repeat split; try reflexivity.
  intros (m & Hm & _ & rest & Hu).
  vm_compute in Hm. injection Hm as <-. vm_compute in Hu. discriminate.
Qed.

(** C1, as amended: with search path [[d1; d2]], both directories holding
    an executable regular file [X] that matches the pattern and neither
    scan meeting a failing [stat], discovery yields exactly one system
    module called [X]; it lies under the directory whose scan completes
    first: [d1] when the scans complete in list order, [d2] otherwise. *)
Theorem dedup_first_completed_wins hst sch d1 d2 X files1 files2 :
  PATH hst = [d1; d2] ->
  disk hst d1 = Dir files1 ->
  disk hst d2 = Dir files2 ->
  In (X, File true) files1 ->
  In (X, File true) files2 ->
  matches_pattern X = true ->
  tidy files1 = true ->
  tidy files2 = true ->
  exists m,
    named X (fst (discoverSystemModules hst sch)) = [m]
    /\ type m = system
    /\ under (if scan_done sch 0 <=? scan_done sch 1 then d1 else d2) (path m).
Proof.
  intros HP H1 H2 HX1 HX2 Hpat Ht1 Ht2.
  rewrite system_first_completed. unfold system_scans. rewrite HP. simpl imap.
  rewrite by_completion_two, H1, H2.
  assert (Hfirst : forall d files other,
            tidy files = true -> In (X, File true) files ->
            exists m, firstn 1 (named X (concat (map returned
                        [discoverModules sch d (Dir files) system; other]))) = [m]
                      /\ type m = system /\ under d (path m)).
  { intros d files other Ht HX. rewrite returned_two, first_named_app.
    pose proof (tidy_reports sch d system files X Ht HX Hpat) as Hin.
    assert (Hn : In (new_Module X (path_join d X) system)
                    (named X (returned (discoverModules sch d (Dir files) system))))
      by (apply named_In; split; [assumption | reflexivity]).
    destruct (named X (returned (discoverModules sch d (Dir files) system)))
      as [|m l] eqn:E; [contradiction|].
    exists m. split; [reflexivity|].
    assert (Hm : In m (named X (returned (discoverModules sch d (Dir files) system))))
      by (rewrite E; now left).
    apply named_In in Hm as [Hm _].
    pose proof (discoverModules_genuine (Dir files) sch d system) as G.
    rewrite List.Forall_forall in G.
    destruct (G m) as (_ & _ & _ & Hu & Hty & _); [apply in_or_app; now left|].
    split; assumption. }
  destruct (scan_done sch 0 <=? scan_done sch 1); apply Hfirst; assumption.
Qed.

(** The amended C1 at the two directories of the counterexample, in both
    completion orders. *)
Lemma dedup_first_completed_wins_witness :
  (exists m, named "aw-server" (fst (discoverSystemModules two_copies second_scan_first)) = [m]
             /\ type m = system /\ under "/opt/aw" (path m)).
Proof.
  apply (dedup_first_completed_wins two_copies second_scan_first
           "/usr/bin" "/opt/aw" "aw-server"
           [("aw-server", File true)] [("aw-server", File true)]);
    first [reflexivity | now left].
Defined.

Lemma firstn_In {A} k (l : list A) x : In x (firstn k l) -> In x l.
Proof. intros H. rewrite <- (firstn_skipn k l). apply in_or_app. now left. Qed.

(** ** C7: what the registry holds after [init] *)

Lemma genuine_located hst root ty m :
  In root (bundlepath hst :: PATH hst) ->
  genuine root (disk hst root) ty m ->
  located hst m /\ matches_pattern (name m) = true.
Proof.
  intros Hroot (Hd & Hm & _). split; [|assumption].
  exists root, (File true). repeat split; assumption.
Qed.

(** C7, counterexample: the executable ["/usr/bin/old-aw-server.bak"] is
    reported as a module although its name begins with neither family
    name; the pattern matches anywhere in the name. *)
Lemma module_name_need_not_start_with_family :
  modules (snd (Manager_init stale_copy in_list_order (fresh_world, new_Manager [])))
  = Some [new_Module "old-aw-server.bak" "/usr/bin/old-aw-server.bak" system]
  /\ family_prefix "old-aw-server.bak" = false.
Proof. split; reflexivity. Qed.

(** C7, as amended: every module of the registry [init] builds has a
    location that, in the scanned file system, is a regular file with
    execute permission below the bundle directory or a search-path entry,
    and a name that contains [aw-server] or [aw-watcher] (anywhere, not
    necessarily at its start). *)
Theorem discovered_modules_are_executables hst sch w autostart :
  match modules (snd (Manager_init hst sch (w, new_Manager autostart))) with
  | Some ms =>
      Forall (fun m => located hst m
                       /\ (includes (name m) "aw-server" || includes (name m) "aw-watcher") = true)
             ms
  | None => False
  end.
Proof.
  unfold Manager_init, new_Manager. simpl.
  pose proof (discoverModules_genuine (disk hst (bundlepath hst)) sch (bundlepath hst) bundled) as G.
  rewrite List.Forall_forall in G.
  apply List.Forall_forall. intros m Hin.
  apply in_app_or in Hin as [Hin|Hin].
  - apply (genuine_located hst (bundlepath hst) bundled); [now left|].
    apply G. apply in_app_or in Hin as [Hin|Hin]; apply in_or_app.
    + now left.
    + right. eapply firstn_In, Hin.
  - assert (Hs : In m (fst (discoverSystemModules hst sch))) by exact Hin.
    apply system_modules_In in Hs as (p & Hp & Hm).
    apply (genuine_located hst p system); [now right|].
    pose proof (discoverModules_genuine (disk hst p) sch p system) as Gs.
    rewrite List.Forall_forall in Gs. apply Gs. apply in_or_app. now left.
Qed.

(** ** C8: directories that do not exist *)

(** C8: the scan of a directory that does not exist returns the empty
    sequence and prints nothing, whatever the schedule; so a missing bundle
    directory gives no bundled module and no error line, and a missing
    search-path entry adds nothing to the system modules. *)
Theorem missing_directory_is_empty sch hst dir ty :
  discoverModules sch dir absent ty = mkScan [] [] []
  /\ (disk hst (bundlepath hst) = absent ->
      returned (discoverBundledModules hst sch) = []
      /\ late (discoverBundledModules hst sch) = []
      /\ List.filter is_error (output (discoverBundledModules hst sch)) = [])
  /\ (forall m, In m (fst (discoverSystemModules hst sch)) ->
      exists p, In p (PATH hst) /\ disk hst p <> absent).
Proof.
  split; [reflexivity|]. split.
  - intros Habs. unfold discoverBundledModules. rewrite Habs. simpl. repeat split.
  - intros m Hin. apply system_modules_In in Hin as (p & Hp & Hm).
    exists p. split; [assumption|]. intros Habs. rewrite Habs in Hm. exact Hm.
Qed.

Lemma missing_directory_is_empty_witness :
  returned (discoverBundledModules no_bundle in_list_order) = []
  /\ late (discoverBundledModules no_bundle in_list_order) = []
  /\ List.filter is_error (output (discoverBundledModules no_bundle in_list_order)) = [].
Proof.
  apply (proj1 (proj2 (missing_directory_is_empty in_list_order no_bundle "/nowhere" system))).
  reflexivity.
Defined.

(** ** C10: [init] runs once *)

Lemma init_sets_modules hst sch w mgr :
  is_Some (modules (snd (Manager_init hst sch (w, mgr)))).
Proof.
  unfold Manager_init. destruct (modules mgr) as [ms|] eqn:E.
  - simpl. rewrite E. eauto.
  - destruct (discoverSystemModules hst sch) as [modulesSystem out]. simpl. eauto.
Qed.

Lemma init_again hst sch w mgr ms :
  modules mgr = Some ms ->
  Manager_init hst sch (w, mgr)
  = (mkWorld (console w ++ [init_refusal]) (uncaught w), mgr).
Proof. intros E. unfold Manager_init. now rewrite E. Qed.

(** C10: once [init] has completed, [this.modules] is set, even when
    nothing was found; a second [init], whatever the file system and the
    schedule then are, prints an error instead of staying silent and
    leaves the manager, and so the registry, as it was. *)
Theorem init_only_once hst sch hst' sch' w mgr :
  let st1 := Manager_init hst sch (w, mgr) in
  let st2 := Manager_init hst' sch' st1 in
  is_Some (modules (snd st1))
  /\ snd st2 = snd st1
  /\ console (fst st2) = console (fst st1) ++ [init_refusal]
  /\ uncaught (fst st2) = uncaught (fst st1).
Proof.
  cbv zeta. pose proof (init_sets_modules hst sch w mgr) as Hset.
  destruct (Manager_init hst sch (w, mgr)) as [w1 m1]. simpl in Hset.
  destruct Hset as [ms Hms]. rewrite (init_again hst' sch' w1 m1 ms Hms).
  simpl. rewrite Hms. repeat split; eauto.
Qed.

(** ** C2: which module [start(name)] starts *)

Lemma find_filter {A} (p q : A -> bool) l :
  List.find p (List.filter q l) = List.find (fun x => q x && p x) l.
Proof.
  induction l as [|x r IH]; simpl; [reflexivity|].
  destruct (q x); simpl; [|exact IH]. now destruct (p x).
Qed.

Lemma find_refs_from (p : Module_ -> bool) ms : forall k i b,
  ms !! i = Some b ->
  p b = true ->
  (forall j m, j < i -> ms !! j = Some m -> p m = false) ->
  List.find (fun r => p (snd r)) (imap (fun j m => (k + j, m)) ms) = Some (k + i, b).
Proof.
  induction ms as [|x r IH]; intros k i b Hi Hb Hbefore; [discriminate|].
  rewrite imap_cons. simpl. destruct i as [|i]; simpl in Hi.
  - injection Hi as ->. rewrite Hb. now rewrite Nat.add_0_r.
  - rewrite (Hbefore 0 x); [|lia|reflexivity].
    rewrite (imap_ext _ (fun j m => (S k + j, m))).
    + rewrite (IH (S k) i b Hi Hb).
      * f_equal. f_equal. lia.
      * intros j m Hj Hm. apply (Hbefore (S j) m); [lia | exact Hm].
    + intros j m _. simpl. f_equal. lia.
Qed.

Lemma find_refs_none (p : Module_ -> bool) ms : forall k,
  (forall m, In m ms -> p m = false) ->
  List.find (fun r => p (snd r)) (imap (fun j m => (k + j, m)) ms) = None.
Proof.
  induction ms as [|x r IH]; intros k Hno; [reflexivity|].
  rewrite imap_cons. simpl. rewrite (Hno x); [|now left].
  rewrite (imap_ext _ (fun j m => (S k + j, m))).
  - apply IH. intros m Hm. apply Hno. now right.
  - intros j m _. simpl. f_equal. lia.
Qed.

Lemma find_refs (p : Module_ -> bool) ms i b :
  ms !! i = Some b ->
  p b = true ->
  (forall j m, j < i -> ms !! j = Some m -> p m = false) ->
  List.find (fun r => p (snd r)) (refs ms) = Some (i, b).
Proof. exact (find_refs_from p ms 0 i b). Qed.

Lemma find_refs_nothing (p : Module_ -> bool) ms :
  (forall m, In m ms -> p m = false) ->
  List.find (fun r => p (snd r)) (refs ms) = None.
Proof. exact (find_refs_none p ms 0). Qed.

Lemma eqb_name_false (m : Module_) nm : name m <> nm -> String.eqb (name m) nm = false.
Proof. intros H. now apply String.eqb_neq. Qed.

(** The first bundled module called [nm], if there is one. *)
Lemma resolve_bundled ms nm i b :
  ms !! i = Some b ->
  type b = bundled ->
  name b = nm ->
  (forall j m, j < i -> ms !! j = Some m -> type m = bundled -> name m <> nm) ->
  resolve ms nm = Some (i, b).
Proof.
  intros Hi Hty Hnm Hfirst.
  assert (E : List.find (fun r => ModuleType_eqb (type (snd r)) bundled
                                  && String.eqb (name (snd r)) nm) (refs ms)
              = Some (i, b)).
  { apply (find_refs (fun m => ModuleType_eqb (type m) bundled && String.eqb (name m) nm));
      [assumption | |].
    - rewrite Hty. simpl. now apply String.eqb_eq.
    - intros j m Hj Hm. destruct (type m) eqn:Et; [reflexivity|]. simpl.
      apply eqb_name_false. eapply Hfirst; eassumption. }
  unfold resolve, find_named. rewrite find_filter. cbv beta. now rewrite E.
Qed.

Lemma no_bundled_named ms nm :
  (forall m, In m ms -> type m = bundled -> name m <> nm) ->
  List.find (fun r => ModuleType_eqb (type (snd r)) bundled
                      && String.eqb (name (snd r)) nm) (refs ms) = None.
Proof.
  intros Hnob.
  apply (find_refs_nothing
           (fun m => ModuleType_eqb (type m) bundled && String.eqb (name m) nm)).
  intros m Hm. destruct (type m) eqn:E; [reflexivity|]. simpl.
  apply eqb_name_false. now apply Hnob.
Qed.

(** Otherwise the first module called [nm]. *)
Lemma resolve_system ms nm i s :
  (forall m, In m ms -> type m = bundled -> name m <> nm) ->
  ms !! i = Some s ->
  name s = nm ->
  (forall j m, j < i -> ms !! j = Some m -> name m <> nm) ->
  resolve ms nm = Some (i, s) /\ type s = system.
Proof.
  intros Hnob Hi Hnm Hfirst. split.
  - unfold resolve, find_named. rewrite find_filter. cbv beta.
    rewrite (no_bundled_named ms nm Hnob).
    apply (find_refs (fun m => String.eqb (name m) nm));
      [assumption | now apply String.eqb_eq |].
    intros j m Hj Hm. apply eqb_name_false. eapply Hfirst; eassumption.
  - assert (Hin : In s ms) by (eapply list_elem_of_In, list_elem_of_lookup_2, Hi).
    destruct (type s) eqn:E; [reflexivity|]. exfalso. now apply (Hnob s Hin E).
Qed.

Lemma resolve_none ms nm :
  (forall m, In m ms -> name m <> nm) ->
  resolve ms nm = None.
Proof.
  intros Hno. unfold resolve, find_named. rewrite find_filter. cbv beta.
  rewrite (no_bundled_named ms nm); [|intros m Hm _; now apply Hno].
  apply (find_refs_nothing (fun m => String.eqb (name m) nm)).
  intros m Hm. apply eqb_name_false. now apply Hno.
Qed.

(** C2: with registry [ms], [start(nm)] starts the first bundled module
    called [nm] when there is one, wherever system modules of that name
    stand in the registry; otherwise the first module called [nm], which
    is then a system module; and when no module is called [nm] it starts
    nothing, leaves the registry as it is and prints that the module could
    not be started. *)
Theorem start_prefers_bundled testing launch w ms auto nm :
  (forall i b,
      ms !! i = Some b -> type b = bundled -> name b = nm ->
      (forall j m, j < i -> ms !! j = Some m -> type m = bundled -> name m <> nm) ->
      Manager_start testing launch nm (w, mkManager (Some ms) auto)
      = started testing launch w ms auto i b)
  /\ (forall i s,
      (forall m, In m ms -> type m = bundled -> name m <> nm) ->
      ms !! i = Some s -> name s = nm ->
      (forall j m, j < i -> ms !! j = Some m -> name m <> nm) ->
      type s = system
      /\ Manager_start testing launch nm (w, mkManager (Some ms) auto)
         = started testing launch w ms auto i s)
  /\ ((forall m, In m ms -> name m <> nm) ->
      Manager_start testing launch nm (w, mkManager (Some ms) auto)
      = Ok (mkWorld (console w ++ [not_found nm]) (uncaught w),
            mkManager (Some ms) auto)).
Proof.
  repeat split.
  - intros i b Hi Hty Hnm Hfirst. unfold Manager_start, started. simpl.
    rewrite (resolve_bundled ms nm i b Hi Hty Hnm Hfirst).
    now destruct (Module_start testing (launch (path b)) w b).
  - eapply resolve_system; eassumption.
  - unfold Manager_start, started. simpl.
    destruct (resolve_system ms nm i s) as [-> _]; try assumption.
    now destruct (Module_start testing (launch (path s)) w s).
  - intros Hno. unfold Manager_start. simpl. now rewrite (resolve_none ms nm Hno).
Qed.

Lemma start_prefers_bundled_witness :
  Manager_start false (fun _ => Launched) "aw-server"
                (fresh_world, mkManager (Some both_origins) [])
  = Ok (mkWorld [(LOG, "Starting aw-server")] [],
        mkManager
          (Some [new_Module "aw-server" "/usr/bin/aw-server" system;
                 mkModule "aw-server" "/app/modules/aw-server" bundled
                          (Some (mkChild "/app/modules/aw-server" [] true None None false));
                 new_Module "aw-watcher-afk" "/usr/bin/aw-watcher-afk" system])
          []).
Proof.
  rewrite (proj1 (start_prefers_bundled false (fun _ => Launched) fresh_world
                    both_origins [] "aw-server")
             1 (new_Module "aw-server" "/app/modules/aw-server" bundled)).
  - reflexivity.
  - reflexivity.
  - reflexivity.
  - reflexivity.
  - intros j m Hj Hm Hty. assert (j = 0) as -> by lia.
    injection Hm as <-. discriminate.
Defined.

(** ** C3: the two phases of [autostart] *)

Section CallEach.
Context {S : Type} (call : string -> S -> result S) (awaits : string -> S -> bool).

(** Every mark is about one of the names called. *)
Lemma call_each_subjects names : forall s s' now later,
  call_each call awaits names s = (s', now, later) ->
  Forall (fun k => In (subject k) names) (now ++ later).
Proof.
  induction names as [|n rest IH]; simpl; intros s s' now later Heq.
  - injection Heq as _ <- <-. constructor.
  - assert (Hstep : forall s1 s2 now2 later2,
              call_each call awaits rest s1 = (s2, now2, later2) ->
              Forall (fun k => In (subject k) (n :: rest)) (now2 ++ later2)).
    { intros s1 s2 now2 later2 E. eapply List.Forall_impl; [|exact (IH _ _ _ _ E)].
      intros k Hk. now right. }
    destruct (call n s) as [s1|e].
    + destruct (call_each call awaits rest s1) as [[s2 now2] later2] eqn:E.
      specialize (Hstep _ _ _ _ E). apply Forall_app in Hstep as [Hn Hl].
      destruct (awaits n s); injection Heq as _ <- <-.
      * apply Forall_app. split; constructor; simpl; auto.
      * apply Forall_app. split; [|assumption]. repeat constructor; simpl; auto.
    + destruct (call_each call awaits rest s) as [[s2 now2] later2] eqn:E.
      specialize (Hstep _ _ _ _ E). apply Forall_app in Hstep as [Hn Hl].
      injection Heq as _ <- <-.
      apply Forall_app. split; [|assumption]. repeat constructor; simpl; auto.
Qed.

(** When every call returns, every promise is fulfilled. *)
Lemma call_each_fulfilled (I : S -> Prop) :
  (forall n s, I s -> exists s', call n s = Ok s' /\ I s') ->
  forall names s s' now later,
    I s -> call_each call awaits names s = (s', now, later) ->
    forallb fulfilled (now ++ later) = true /\ I s'.
Proof.
  intros Hcall. induction names as [|n rest IH]; simpl; intros s s' now later Hs Heq.
  - injection Heq as <- <- <-. now split.
  - destruct (Hcall n s Hs) as (s1 & Hc & Hs1). rewrite Hc in Heq.
    destruct (call_each call awaits rest s1) as [[s2 now2] later2] eqn:E.
    destruct (IH _ _ _ _ Hs1 E) as [Hf Hs2].
    rewrite forallb_app in Hf. apply andb_true_iff in Hf as [Hn Hl].
    destruct (awaits n s); injection Heq as <- <- <-; split; try assumption;
      rewrite forallb_app; simpl; now rewrite Hn, Hl.
Qed.

Lemma await_all_subjects names s s' j ok :
  await_all call awaits names s = (s', j, ok) ->
  Forall (fun k => In (subject k) names) j.
Proof.
  unfold await_all. destruct (call_each call awaits names s) as [[s1 now] later] eqn:E.
  intros Heq. injection Heq as _ <- _. exact (call_each_subjects _ _ _ _ _ E).
Qed.

Lemma await_all_fulfilled (I : S -> Prop) :
  (forall n s, I s -> exists s', call n s = Ok s' /\ I s') ->
  forall names s s' j ok,
    I s -> await_all call awaits names s = (s', j, ok) ->
    ok = true /\ I s'.
Proof.
  intros Hcall names s s' j ok Hs. unfold await_all.
  destruct (call_each call awaits names s) as [[s1 now] later] eqn:E.
  intros Heq. injection Heq as <- _ <-.
  exact (call_each_fulfilled I Hcall _ _ _ _ _ Hs E).
Qed.
End CallEach.

Lemma subjects_Forall (P : string -> Prop) j names :
  Forall (fun k => In (subject k) names) j ->
  (forall n, In n names -> P n) ->
  Forall (fun k => P (subject k)) j.
Proof. intros Hj HP. eapply List.Forall_impl; [|exact Hj]. intros k Hk. now apply HP. Qed.

Lemma phases_ordered_app j1 j2 :
  Forall (fun k => is_server (subject k) = true) j1 ->
  Forall (fun k => is_server (subject k) = false) j2 ->
  phases_ordered (j1 ++ j2).
Proof.
  intros H1 H2 i k n mk Hi Hn Hk Hs.
  rewrite List.Forall_forall in H1, H2.
  apply lookup_app_Some in Hi as [Hi|[Hlen Hi]].
  - apply list_elem_of_lookup_2, list_elem_of_In, H1 in Hi. simpl in Hi. congruence.
  - apply lookup_app_Some in Hk as [Hk|[_ Hk]].
    + apply lookup_lt_Some in Hk. lia.
    + apply list_elem_of_lookup_2, list_elem_of_In, H2 in Hk. congruence.
Qed.

Lemma Manager_start_returns testing launch nm st :
  is_Some (modules (snd st)) ->
  exists st', Manager_start testing launch nm st = Ok st' /\ is_Some (modules (snd st')).
Proof.
  destruct st as [w mgr]. simpl. intros [ms Hms]. unfold Manager_start. rewrite Hms.
  destruct (resolve ms nm) as [[i m]|].
  - destruct (Module_start testing (launch (path m)) w m) as [w' m'].
    eexists. split; [reflexivity|]. simpl. eauto.
  - eexists. split; [reflexivity|]. simpl. rewrite Hms. eauto.
Qed.

(** ** C4: the process handle and [running()] *)

(** C4, counterexample: after a successful start and the exit of the
    process with code 0, the handle is still there and [running()] still
    answers [true], although the process has been reported as exited. *)
Lemma handle_survives_exit :
  is_Some (process exited_on_its_own)
  /\ Module_running exited_on_its_own = Ok true
  /\ ~ Running exited_on_its_own
  /\ ~ handle_tracks_state exited_on_its_own.
Proof.
  assert (HR : ~ Running exited_on_its_own).
  { intros (p & Hp & Hex). vm_compute in Hp. injection Hp as <-. discriminate. }
  repeat split.
  - vm_compute. eauto.
  - exact HR.
  - intros [H _]. apply HR, H. vm_compute. eauto.
Qed.

Lemma step_keeps_handle testing o w m :
  is_Some (process m) -> is_Some (process (snd (step testing o (w, m)))).
Proof.
  intros [p Hp]. destruct m as [nm pth ty pr]. simpl in Hp. subst pr.
  destruct o as [[]| |[]|[]]; simpl;
    unfold notify, Module_toggle, Module_stop, Module_running; simpl;
    try (destruct (signalCode p)); simpl;
    try (destruct (alive p)); try (destruct (launched p)); simpl; eauto.
Qed.

Lemma step_first_handle testing o w m :
  process m = None ->
  (is_Some (process (snd (step testing o (w, m)))) <-> attaches o = true).
Proof.
  intros Hp. destruct m as [nm pth ty pr]. simpl in Hp. subst pr.
  destruct o as [[]| |[]|[]]; simpl; split; intros H;
    try reflexivity; try discriminate; eauto;
    try (destruct H; discriminate).
Qed.

Lemma run_handle testing ops : forall st,
  is_Some (process (snd (run testing ops st)))
  <-> is_Some (process (snd st)) \/ existsb attaches ops = true.
Proof.
  unfold run. induction ops as [|o ops IH]; intros [w m]; simpl.
  - split; [tauto | intros [?|?]; [assumption | discriminate]].
  - rewrite IH. destruct (process m) as [p|] eqn:Hp.
    + split; intros _; left; [eauto|].
      apply step_keeps_handle. rewrite Hp. eauto.
    + rewrite (step_first_handle testing o w m Hp). rewrite orb_true_iff.
      split; [intros [?|?]; right; tauto|].
      intros [[? Hn]|[?|?]]; [discriminate|tauto|tauto].
Qed.

(** C4, as amended: over every sequence of supervisor calls and
    notifications on a module, the handle is present exactly when some
    earlier [start] got a process back from [spawn], and is never cleared,
    not by the exit of the process either; [running()] answers [true]
    exactly when the handle is present and its [signalCode] is null, that
    is, when the process has not been reported as terminated by a signal;
    and the report of an exit with an exit code leaves the answer of
    [running()] as it was. *)
Theorem handle_outlives_process testing ops w nm pth ty code :
  let st := run testing ops (w, new_Module nm pth ty) in
  (is_Some (process (snd st)) <-> existsb attaches ops = true)
  /\ (Module_running (snd st) = Ok true
      <-> exists p, process (snd st) = Some p /\ signalCode p = None)
  /\ Module_running (snd (step testing (Notify (ExitsWith code)) st))
     = Module_running (snd st).
Proof.
  cbv zeta. split; [|split].
  - rewrite run_handle. simpl. split; [intros [[? H]|?]; [discriminate|assumption] | tauto].
  - unfold Module_running.
    destruct (process (snd (run testing ops (w, new_Module nm pth ty)))) as [p|].
    + destruct (signalCode p) eqn:E; split; try discriminate; eauto.
      intros (p' & Hp' & Hs). injection Hp' as <-. congruence.
    + split; [discriminate | intros (p & Hp & _); discriminate].
  - destruct (run testing ops (w, new_Module nm pth ty)) as [w' m'].
    destruct m' as [nm' pth' ty' [p|]]; simpl; [|reflexivity].
    unfold notify, Module_running. simpl.
    destruct (alive p) eqn:Ha; simpl; [|reflexivity].
    unfold alive in Ha. destruct (launched p), (exitCode p), (signalCode p);
      simpl in *; try discriminate; reflexivity.
Qed.

(** ** C5, C6, C9: a module no [start] has attached a process to *)

(** [start] with a [spawn] that throws: the error is printed and the module
    is left as it was. *)
Lemma start_spawn_throws testing e w m :
  Module_start testing (Throws e) w m
  = (mkWorld (console w
              ++ [(LOG, "Starting " +:+ name m
                        +:+ (if testing then " (in testing mode)" else ""));
                  (ERROR, "ERROR " +:+ name m +:+ ": Error: spawn " +:+ errno_name e)])
             (uncaught w),
     m).
Proof. unfold Module_start, say. simpl. now rewrite <- app_assoc. Qed.

(** C5 on the code: for a module that was never started, a failing spawn
    does not leave [running()] answering [false].  When [spawn] throws,
    [start] prints the error and attaches nothing, and [running()] then
    throws; when [spawn] returns a process and fails afterwards, nothing is
    caught or printed by [start], the handle is attached, [running()]
    answers [true], and the ['error'] event, which has no listener, is
    thrown. *)
Theorem failed_spawn_on_fresh_module testing nm pth ty e :
  let m := new_Module nm pth ty in
  snd (Module_start testing (Throws e) fresh_world m) = m
  /\ Module_running (snd (Module_start testing (Throws e) fresh_world m))
     = Throw no_signalCode
  /\ Module_running (snd (Module_start testing (FailsLater e) fresh_world m)) = Ok true
  /\ List.filter is_error (console (fst (Module_start testing (FailsLater e) fresh_world m)))
     = []
  /\ uncaught (fst (run testing [Start (FailsLater e); Notify (LaunchError e)]
                        (fresh_world, m)))
     = [SpawnFailure e].
Proof. cbv zeta. repeat split. Qed.

(** [stop] on a module whose process was terminated by a signal: a warning,
    and nothing else. *)
Lemma stop_when_signalled w m p s :
  process m = Some p ->
  signalCode p = Some s ->
  Module_stop w m
  = Ok (mkWorld (console w ++ [(WARN, "Module wasn't running, cannot stop.")]) (uncaught w),
        m).
Proof. intros Hp Hs. unfold Module_stop, Module_running. now rewrite Hp, Hs. Qed.

(** C6 on the code: [stop] on a module that was never started throws
    instead of printing the warning. *)
Theorem stop_on_fresh_module_throws w nm pth ty :
  Module_stop w (new_Module nm pth ty) = Throw no_signalCode.
Proof. reflexivity. Qed.

(** C9 on the code: [toggle] on a module that was never started throws
    instead of starting it, whatever [spawn] would have answered. *)
Theorem toggle_on_fresh_module_throws testing o w nm pth ty :
  Module_toggle testing o w (new_Module nm pth ty) = Throw no_signalCode.
Proof. reflexivity. Qed.

(** X12: on a module that has a process, two toggles bring [running()] back to
    its answer once the termination that [kill] asked for is reported:
    from a live process, kill, report, restart; from a signalled one,
    restart, kill, report. *)
Lemma toggle_twice_with_handle testing w m p :
  process m = Some p ->
  (alive p = true ->
   Module_running
     (snd (run testing [Toggle Launched; Notify (KilledBy "SIGTERM"); Toggle Launched] (w, m)))
   = Module_running m)
  /\ (signalCode p <> None ->
      Module_running
        (snd (run testing [Toggle Launched; Toggle Launched; Notify (KilledBy "SIGTERM")] (w, m)))
      = Module_running m).
Proof.
  intros Hp. destruct m as [nm pth ty pr]. simpl in Hp. subst pr. split.
  - unfold alive. intros Ha.
    destruct p as [f a [|] [c|] [s|] k]; simpl in Ha; try discriminate. reflexivity.
  - intros Hs. destruct p as [f a l c [s|] k]; [|simpl in Hs; congruence]. reflexivity.
Qed.

(** ** Command line *)

Lemma split_on_cons sep s : exists x xs, split_on sep s = x :: xs.
Proof.
  induction s as [|c r [x [xs IH]]]; simpl; [eauto|].
  destruct (Ascii.eqb c sep); [eauto|]. rewrite IH. eauto.
Qed.

Lemma split_on_no_sep sep s : Forall (fun x => no_sep sep x = true) (split_on sep s).
Proof.
  induction s as [|c r IH]; simpl; [repeat constructor|].
  destruct (Ascii.eqb c sep) eqn:E; [constructor; [reflexivity | exact IH]|].
  destruct (split_on sep r) as [|x xs]; [repeat constructor; simpl; now rewrite E|].
  inversion IH as [|? ? Hx Hxs]; subst. constructor; [|assumption].
  simpl. now rewrite E, Hx.
Qed.

Lemma split_on_plain sep s : no_sep sep s = true -> split_on sep s = [s].
Proof.
  induction s as [|c r IH]; simpl; [reflexivity|].
  destruct (Ascii.eqb c sep); simpl; [discriminate|]. intros H. now rewrite IH.
Qed.

Lemma split_on_app sep a b :
  no_sep sep a = true ->
  split_on sep (a +:+ String sep b) = a :: split_on sep b.
Proof.
  induction a as [|c r IH]; intros H.
  - change (split_on sep (String sep b) = "" :: split_on sep b).
    simpl. now rewrite Ascii.eqb_refl.
  - change (split_on sep (String c (r +:+ String sep b)) = String c r :: split_on sep b).
    simpl in *. destruct (Ascii.eqb c sep); simpl in H; [discriminate|]. now rewrite IH.
Qed.

Lemma split_join_comma names :
  Forall plain_name names ->
  names <> [] ->
  split_on "," (join_comma names) = names.
Proof.
  induction names as [|n [|n' rest] IH]; intros Hall Hne; [congruence| |].
  - inversion Hall as [|? ? [_ Hn] _]; subst. now apply split_on_plain.
  - inversion Hall as [|? ? [_ Hn] Hrest]; subst.
    change (split_on "," (n +:+ String "," (join_comma (n' :: rest))) = n :: n' :: rest).
    rewrite split_on_app by assumption. f_equal. now apply IH.
Qed.

Lemma indexOf_first x pre post :
  ~ In x pre ->
  indexOf x (pre ++ x :: post) = Z.of_nat (length pre).
Proof.
  induction pre as [|y pre IH]; intros Hno; simpl.
  - now rewrite String.eqb_refl.
  - destruct (String.eqb y x) eqn:E.
    + apply String.eqb_eq in E. exfalso. apply Hno. now left.
    + rewrite IH by (intros H; apply Hno; now right).
      destruct (Z.of_nat (length pre)) eqn:EZ; lia.
Qed.

Lemma at_index_nat l k : at_index l (Z.of_nat k) = l !! k.
Proof. unfold at_index. destruct (Z.of_nat k) eqn:E; try lia; f_equal; lia. Qed.

Lemma flag_present (x : string) l : In x l -> existsb (String.eqb x) l = true.
Proof. intros H. apply existsb_exists. exists x. split; [assumption | apply String.eqb_refl]. Qed.

Lemma flag_absent (x : string) l : ~ In x l -> existsb (String.eqb x) l = false.
Proof.
  intros H. destruct (existsb (String.eqb x) l) eqn:E; [|reflexivity].
  apply existsb_exists in E as (y & Hy & Heq). apply String.eqb_eq in Heq. now subst.
Qed.

(** X1: whatever the command line, the names [AUTOSTART] holds are never
    empty and contain no comma. *)
Theorem AUTOSTART_names_plain argv :
  match AUTOSTART argv with
  | Ok names => Forall plain_name names
  | Throw _ => True
  end.
Proof.
  unfold AUTOSTART. destruct (existsb _ argv); [|constructor].
  destruct (at_index argv _) as [v|]; [|exact I].
  apply List.Forall_forall. intros n Hn. apply filter_In in Hn as [Hn Hne].
  pose proof (split_on_no_sep "," v) as H. rewrite List.Forall_forall in H.
  split; [|now apply H].
  intros ->. discriminate.
Qed.

(** X2: round trip: a command line whose first [--autostart] is followed by
    plain names joined by commas gives back exactly those names, in order,
    whatever stands before and after. *)
Theorem AUTOSTART_round_trip pre names post :
  ~ In "--autostart" pre ->
  Forall plain_name names ->
  AUTOSTART (pre ++ "--autostart" :: join_comma names :: post) = Ok names.
Proof.
  intros Hpre Hall. unfold AUTOSTART.
  rewrite flag_present by (apply in_or_app; right; now left).
  rewrite indexOf_first by assumption.
  replace (Z.of_nat (length pre) + 1)%Z with (Z.of_nat (length pre + 1)) by lia.
  rewrite at_index_nat.
  rewrite lookup_app_r by lia.
  replace (length pre + 1 - length pre) with 1 by lia. simpl. f_equal.
  destruct names as [|n rest]; [reflexivity|].
  rewrite split_join_comma by (assumption || discriminate).
  apply forallb_filter_id.
  apply forallb_forall. intros x Hx. rewrite List.Forall_forall in Hall.
  destruct (Hall x Hx) as [Hne _]. apply negb_true_iff. now apply String.eqb_neq.
Qed.

Lemma AUTOSTART_round_trip_witness :
  AUTOSTART ["electron"; "."; "--testing"; "--autostart"; "aw-server,aw-watcher-afk"]
  = Ok ["aw-server"; "aw-watcher-afk"].
Proof.
  apply (AUTOSTART_round_trip ["electron"; "."; "--testing"]
                              ["aw-server"; "aw-watcher-afk"] []).
  - intros [H|[H|[H|[]]]]; discriminate.
  - repeat constructor; discriminate.
Defined.

(** X3: without the flag [AUTOSTART] is empty; with [--autostart] as the
    last argument, nothing follows it and building [AUTOSTART] throws. *)
Theorem AUTOSTART_flag_edges argv :
  ~ In "--autostart" argv ->
  AUTOSTART argv = Ok []
  /\ exists e, AUTOSTART (argv ++ ["--autostart"]) = Throw e.
Proof.
  intros Hno. unfold AUTOSTART. split.
  - now rewrite flag_absent.
  - rewrite flag_present by (apply in_or_app; right; now left).
    rewrite indexOf_first by assumption.
    replace (Z.of_nat (length argv) + 1)%Z with (Z.of_nat (length argv + 1)) by lia.
    rewrite at_index_nat, lookup_ge_None_2; [eauto|].
    rewrite length_app. simpl. lia.
Qed.

Lemma AUTOSTART_flag_edges_witness :
  AUTOSTART ["electron"; "."] = Ok []
  /\ exists e, AUTOSTART (["electron"; "."] ++ ["--autostart"]) = Throw e.
Proof.
  apply (AUTOSTART_flag_edges ["electron"; "."]).
  intros [H|[H|[]]]; discriminate.
Defined.

(** ** findExecutable *)

Lemma head_In {A} (l : list A) x : head l = Some x -> In x l.
Proof. destruct l; simpl; [discriminate|]. intros [= ->]. now left. Qed.

Lemma settled_In {A} (check_done : nat -> nat) (l : list (option A)) r :
  In r (by_completion (imap (fun i r => (check_done i, r)) l)) <-> In r l.
Proof.
  rewrite by_completion_In, in_map_iff. split.
  - intros ([k r'] & <- & Hin).
    apply list_elem_of_In, elem_of_lookup_imap in Hin as (i & y & [= _ ->] & Hy).
    eapply list_elem_of_In, list_elem_of_lookup_2, Hy.
  - intros Hin. apply list_elem_of_In, list_elem_of_lookup in Hin as [i Hi].
    exists (check_done i, r). split; [reflexivity|].
    apply list_elem_of_In, elem_of_lookup_imap. eauto.
Qed.

Lemma promise_any_Some {A} check_done (l : list (option A)) x :
  promise_any check_done l = Some x -> In (Some x) l.
Proof.
  unfold promise_any. intros H. apply head_In in H.
  apply list_elem_of_In, list_elem_of_omap in H as (r & Hr & Hx).
  simpl in Hx. subst r. apply list_elem_of_In in Hr. now apply settled_In in Hr.
Qed.

Lemma promise_any_None {A} check_done (l : list (option A)) :
  promise_any check_done l = None <-> forall x, ~ In (Some x) l.
Proof.
  unfold promise_any. split.
  - intros H x Hin. apply (settled_In check_done) in Hin.
    destruct (omap id (by_completion (imap (fun i r => (check_done i, r)) l)))
      as [|y ys] eqn:E; [|discriminate].
    assert (Hx : x ∈ omap id (by_completion (imap (fun i r => (check_done i, r)) l))).
    { apply list_elem_of_omap. exists (Some x). split; [now apply list_elem_of_In | reflexivity]. }
    rewrite E in Hx. inversion Hx.
  - intros Hno.
    destruct (omap id (by_completion (imap (fun i r => (check_done i, r)) l)))
      as [|y ys] eqn:E; [reflexivity|]. exfalso.
    assert (Hy : y ∈ omap id (by_completion (imap (fun i r => (check_done i, r)) l)))
      by (rewrite E; constructor).
    apply list_elem_of_omap in Hy as (r & Hr & Hx). simpl in Hx. subst r.
    apply list_elem_of_In, settled_In in Hr. now apply (Hno y).
Qed.

Lemma checkFileExists_Some env p q :
  checkFileExists env p = Some q <-> q = p /\ stat (denoted env p) = inr IsFile.
Proof.
  unfold checkFileExists. destruct (stat (denoted env p)) as [e|[]];
    split; try discriminate; try (intros [_ H]; discriminate).
  - intros [= <-]. now split.
  - intros [-> _]. reflexivity.
Qed.

(** X4: whatever the order in which the checks settle, [findExecutable]
    answers with a path only when that path is one of the candidates and
    [stat] says it is a regular file, and answers [null] exactly when no
    candidate is a regular file; execute permission is never looked at. *)
Theorem findExecutable_finds_a_file env check_done exe :
  (forall p, findExecutable env check_done exe = Some p ->
             In p (candidates env exe) /\ stat (denoted env p) = inr IsFile)
  /\ (findExecutable env check_done exe = None
      <-> forall p, In p (candidates env exe) -> stat (denoted env p) <> inr IsFile).
Proof.
  unfold findExecutable. split.
  - intros p H. apply promise_any_Some, in_map_iff in H as (q & Hq & Hin).
    apply checkFileExists_Some in Hq as [-> Hs]. now split.
  - rewrite promise_any_None. split.
    + intros Hno p Hin Hs. apply (Hno p). apply in_map_iff. exists p.
      split; [now apply checkFileExists_Some | assumption].
    + intros Hno x Hin. apply in_map_iff in Hin as (q & Hq & Hin).
      apply checkFileExists_Some in Hq as [-> Hs]. now apply (Hno q).
Qed.

Lemma findExecutable_finds_a_file_witness :
  In "/opt/aw/aw-qt" (candidates (mkLookupEnv ":" (Some "/usr/bin:/opt/aw") None
                                   (fun p => if String.eqb p "/opt/aw/aw-qt"
                                             then File false else absent)) "aw-qt")
  /\ stat (File false) = inr IsFile.
Proof.
  apply (proj1 (findExecutable_finds_a_file
                  (mkLookupEnv ":" (Some "/usr/bin:/opt/aw") None
                     (fun p => if String.eqb p "/opt/aw/aw-qt" then File false else absent))
                  (fun i => i) "aw-qt") "/opt/aw/aw-qt").
  reflexivity.
Defined.






(** ** More on discovery *)

Lemma known_In (x : string) l : existsb (String.eqb x) l = false -> ~ In x l.
Proof. intros E H. apply (flag_present x l) in H. congruence. Qed.

Lemma add_unless_known_NoDup acc m :
  NoDup (map name acc) -> NoDup (map name (add_unless_known acc m)).
Proof.
  intros Hnd. unfold add_unless_known.
  destruct (existsb (String.eqb (name m)) (map name acc)) eqn:E; [assumption|].
  apply known_In in E. rewrite map_app. simpl. apply NoDup_app. repeat split.
  - assumption.
  - intros x Hx Hm. apply list_elem_of_In in Hx. apply list_elem_of_singleton in Hm.
    now subst.
  - apply NoDup_singleton.
Qed.

Lemma merge_found_NoDup found : forall acc,
  NoDup (map name acc) -> NoDup (map name (merge_found acc found)).
Proof.
  unfold merge_found. induction found as [|m r IH]; intros acc Hnd; simpl; [assumption|].
  apply IH. now apply add_unless_known_NoDup.
Qed.

Lemma system_scans_of hst sch p :
  In p (PATH hst) ->
  In (discoverModules sch p (disk hst p) system) (system_scans hst sch).
Proof.
  intros Hp. unfold system_scans. apply by_completion_In.
  apply list_elem_of_In, list_elem_of_lookup in Hp as [i Hi].
  apply in_map_iff. exists (scan_done sch i, discoverModules sch p (disk hst p) system).
  split; [reflexivity|]. apply list_elem_of_In, elem_of_lookup_imap. eauto.
Qed.

(** X6: for every file system and every completion order, no two system
    modules of a discovery share a name, and no name is lost: whatever
    module the scan of a search-path entry returns, the system modules hold
    a module of that name. *)
Theorem system_modules_one_per_name hst sch :
  NoDup (map name (fst (discoverSystemModules hst sch)))
  /\ (forall p m,
        In p (PATH hst) ->
        In m (returned (discoverModules sch p (disk hst p) system)) ->
        exists m', In m' (fst (discoverSystemModules hst sch)) /\ name m' = name m).
Proof.
  split.
  - unfold discoverSystemModules. simpl.
    assert (H : forall scans acc, NoDup (map name acc) ->
              NoDup (map name (fold_left (fun modules sc => merge_found modules (returned sc))
                                         scans acc))).
    { induction scans as [|sc r IH]; intros acc Hnd; simpl; [assumption|].
      apply IH. now apply merge_found_NoDup. }
    apply H. constructor.
  - intros p m Hp Hm.
    assert (Hc : In m (named (name m) (concat (map returned (system_scans hst sch))))).
    { apply named_In. split; [|reflexivity]. apply in_concat.
      exists (returned (discoverModules sch p (disk hst p) system)). split; [|assumption].
      apply in_map. now apply system_scans_of. }
    pose proof (system_first_completed hst sch (name m)) as Hf.
    destruct (named (name m) (concat (map returned (system_scans hst sch)))) as [|m' l];
      [contradiction|].
    exists m'. apply (proj1 (named_In (name m) _ m')). rewrite Hf. now left.
Qed.

Lemma system_modules_one_per_name_witness :
  exists m', In m' (fst (discoverSystemModules two_copies second_scan_first))
             /\ name m' = name (new_Module "aw-server" "/usr/bin/aw-server" system).
Proof.
  apply (proj2 (system_modules_one_per_name two_copies second_scan_first) "/usr/bin").
  - now left.
  - now left.
Defined.

Lemma filter_twice {A} (f : A -> bool) l :
  List.filter f (List.filter f l) = List.filter f l.
Proof.
  induction l as [|x r IH]; simpl; [reflexivity|].
  destruct (f x) eqn:E; simpl; [rewrite E; now f_equal | exact IH].
Qed.

(** X8: a scan looks only at the entries whose name matches the pattern:
    the other entries of the directory, whatever they are, change neither
    the result nor the output; so a directory none of whose entries matches
    gives nothing and prints nothing, even when matching executables lie
    deeper inside it. *)
Theorem unmatched_entries_are_ignored sch dir files ty :
  discoverModules sch dir (Dir files) ty
  = discoverModules sch dir
      (Dir (List.filter (fun e => matches_pattern (fst e)) files)) ty
  /\ (List.filter (fun e => matches_pattern (fst e)) files = [] ->
      discoverModules sch dir (Dir files) ty = mkScan [] [] []).
Proof.
  split.
  - rewrite !discoverModules_Dir. unfold callbacks. now rewrite filter_twice.
  - intros Hno. rewrite discoverModules_Dir. unfold callbacks. now rewrite Hno.
Qed.

Lemma unmatched_entries_are_ignored_witness :
  discoverModules in_list_order "/usr"
    (Dir [("bin", Dir [("aw-server", File true)]); ("lib", NoStat EACCES)]) system
  = mkScan [] [] [].
Proof.
  apply (proj2 (unmatched_entries_are_ignored in_list_order "/usr"
                  [("bin", Dir [("aw-server", File true)]); ("lib", NoStat EACCES)] system)).
  reflexivity.
Defined.

(** ** Completion order and the contents of a scan *)

Lemma insert_by_Permutation {A} k (x : A) l :
  Permutation (insert_by k x l) ((k, x) :: l).
Proof.
  induction l as [|[k' y] r IH]; simpl; [reflexivity|].
  destruct (k <=? k'); [reflexivity|].
  rewrite IH. apply perm_swap.
Qed.

Lemma by_completion_Permutation {A} (l : list (nat * A)) :
  Permutation (by_completion l) (map snd l).
Proof.
  unfold by_completion. induction l as [|[k x] r IH]; simpl; [reflexivity|].
  rewrite insert_by_Permutation. simpl. now rewrite IH.
Qed.

Lemma after_all_fulfilled cbs :
  (forall e, ~ In (Rejected e) cbs) ->
  returned (after_all cbs) = pushes cbs /\ late (after_all cbs) = [].
Proof.
  intros Hno. unfold after_all.
  destruct (until_rejected_all cbs [] [] Hno) as [out' ->]. now split.
Qed.

Lemma clean_Dir files :
  clean (Dir files)
  = forallb (fun e => negb (matches_pattern (fst e))
                      || (match stat (snd e) with inl _ => false | inr _ => true end
                          && clean (snd e)))
            files.
Proof.
  simpl. induction files as [|[f c] rest IH]; simpl; [reflexivity|]. now rewrite IH.
Qed.

Lemma clean_entry files f c :
  clean (Dir files) = true ->
  In (f, c) files ->
  matches_pattern f = true ->
  (forall e, stat c <> inl e) /\ clean c = true.
Proof.
  rewrite clean_Dir, forallb_forall. intros Hall Hin Hpat.
  specialize (Hall _ Hin). simpl in Hall. rewrite Hpat in Hall. simpl in Hall.
  apply andb_true_iff in Hall as [Hs Hc]. split; [|assumption].
  intros e He. now rewrite He in Hs.
Qed.

Lemma clean_tidy files : clean (Dir files) = true -> tidy files = true.
Proof.
  rewrite clean_Dir. unfold tidy. rewrite !forallb_forall. intros Hall e He.
  specialize (Hall e He). destruct (matches_pattern (fst e)); [|reflexivity].
  simpl in *. now apply andb_true_iff in Hall as [-> _].
Qed.

(** What the callback of one entry pushes. *)
Lemma pushes_callbacks sch dir ty l :
  pushes (map snd (map (fun e => callback sch dir ty (fst e) (snd e)) l))
  = flat_map (fun e => pushes [snd (callback sch dir ty (fst e) (snd e))]) l.
Proof.
  unfold pushes. induction l as [|e r IH]; simpl; [reflexivity|].
  now rewrite IH, app_nil_r.
Qed.

Lemma flat_map_Permutation {A B} (f g : A -> list B) l :
  (forall x, In x l -> Permutation (f x) (g x)) ->
  Permutation (flat_map f l) (flat_map g l).
Proof.
  induction l as [|x r IH]; intros H; simpl; [reflexivity|].
  apply Permutation_app; [apply H; now left | apply IH; intros y Hy; apply H; now right].
Qed.

(** X9: in a tree where no entry a scan looks at makes [stat] fail, the
    completion order of the callbacks changes only the order of the
    modules found: any two schedules give the same modules, each as often,
    and no scan of the tree returns before all its callbacks have pushed. *)
Theorem clean_scan_same_modules sch sch' dir n ty :
  clean n = true ->
  late (discoverModules sch dir n ty) = []
  /\ Permutation (returned (discoverModules sch dir n ty))
                 (returned (discoverModules sch' dir n ty)).
Proof.
  revert sch sch' dir ty.
  induction n as [x|files IH|e| |e] using node_tree_ind; intros sch sch' dir ty Hclean;
    try (simpl; repeat match goal with e : errno |- _ => destruct e end;
         split; reflexivity).
  rewrite !discoverModules_Dir.
  pose proof (clean_tidy files Hclean) as Ht.
  destruct (after_all_fulfilled (by_completion (callbacks sch dir ty files))) as [-> ->].
  { intros e. now apply tidy_no_rejection. }
  destruct (after_all_fulfilled (by_completion (callbacks sch' dir ty files))) as [-> _].
  { intros e. now apply tidy_no_rejection. }
  split; [reflexivity|].
  unfold pushes at 1 2.
  rewrite !(Permutation_flat_map _ (by_completion_Permutation _)).
  fold (pushes (map snd (callbacks sch dir ty files))).
  fold (pushes (map snd (callbacks sch' dir ty files))).
  unfold callbacks. rewrite !pushes_callbacks.
  apply flat_map_Permutation. intros [f c] Hin.
  apply filter_In in Hin as [Hin Hpat]. simpl in Hpat.
  destruct (clean_entry files f c Hclean Hin Hpat) as [Hstat Hc].
  rewrite List.Forall_forall in IH. specialize (IH _ Hin). simpl in IH.
  unfold callback, pushes. simpl.
  destruct c as [x|sub|e| |e]; simpl.
  - reflexivity.
  - rewrite !app_nil_r. now apply IH.
  - destruct e; reflexivity.
  - reflexivity.
  - reflexivity.
Qed.

Lemma clean_scan_same_modules_witness :
  Permutation
    (returned (discoverModules in_list_order "/app/modules" small_bundle bundled))
    (returned (discoverModules server_last "/app/modules" small_bundle bundled)).
Proof.
  apply (proj2 (clean_scan_same_modules in_list_order server_last
                  "/app/modules" small_bundle bundled eq_refl)).
Defined.

Lemma pushed_is_returned sch dir ty files f c ms o m :
  tidy files = true ->
  In (f, c) files ->
  matches_pattern f = true ->
  snd (callback sch dir ty f c) = Fulfilled ms o ->
  In m ms ->
  In m (returned (discoverModules sch dir (Dir files) ty)).
Proof.
  intros Ht Hin Hpat Hcb Hm. rewrite discoverModules_Dir.
  destruct (after_all_fulfilled (by_completion (callbacks sch dir ty files))) as [-> _].
  { intros e. now apply tidy_no_rejection. }
  unfold pushes. apply in_flat_map. exists (Fulfilled ms o). split; [|assumption].
  apply by_completion_In. unfold callbacks. rewrite map_map. apply in_map_iff.
  exists (f, c). split; [assumption|]. apply filter_In. now split.
Qed.

(** X10: in a tree where no entry a scan looks at makes [stat] fail, nothing
    is missed: every executable regular file the scan comes to look at,
    directly or down through directories whose names match, is returned as
    a module with the file's name, its path and the origin of the scan,
    whatever the completion order. *)
Theorem clean_scan_finds_all sch dir n ty f q :
  clean n = true ->
  visits dir n f q (File true) ->
  In (new_Module f q ty) (returned (discoverModules sch dir n ty)).
Proof.
  intros Hclean Hv. remember (File true) as target eqn:Ht.
  induction Hv as [dir files f c Hin Hpat | dir files d sub f q c Hin Hpat Hv IH].
  - subst c. apply tidy_reports; [now apply clean_tidy | assumption | assumption].
  - destruct (clean_entry files d sub Hclean Hin Hpat) as [_ Hsub].
    specialize (IH Hsub Ht).
    inversion Hv; subst;
      (eapply (pushed_is_returned sch dir ty files d (Dir _));
       [now apply clean_tidy | eassumption | assumption | reflexivity | exact IH]).
Qed.

Lemma clean_scan_finds_all_witness :
  In (new_Module "aw-watcher-afk" "/app/modules/aw-watcher-afk/aw-watcher-afk" bundled)
     (returned (discoverModules server_last "/app/modules" small_bundle bundled)).
Proof.
  apply (clean_scan_finds_all server_last "/app/modules" small_bundle bundled
           "aw-watcher-afk" "/app/modules/aw-watcher-afk/aw-watcher-afk" eq_refl).
  eapply visits_below.
  - right. left. reflexivity.
  - reflexivity.
  - apply (visits_entry "/app/modules/aw-watcher-afk"
             [("aw-watcher-afk", File true); ("README", File false)]
             "aw-watcher-afk" (File true)).
    + now left.
    + reflexivity.
Defined.

(** ** More on the life cycle *)

Lemma kill_twice p : kill (kill p) = kill p.
Proof.
  unfold kill. destruct (alive p) eqn:E; [|now rewrite E].
  unfold alive in *. simpl. now rewrite E.
Qed.

Lemma same_identity_refl m : same_identity m m.
Proof. now repeat split. Qed.

(** X11: on a module that has a process handle [stop] never throws and never
    changes what [running()] answers: it only sends the signal (or, when
    the process was already terminated by a signal, only prints the
    warning); the module keeps its identity, and a second [stop] leaves the
    module exactly as the first one left it. *)
Theorem stop_with_handle w m p :
  process m = Some p ->
  exists w' m',
    Module_stop w m = Ok (w', m')
    /\ same_identity m m'
    /\ Module_running m' = Module_running m
    /\ (signalCode p = None -> w' = w /\ process m' = Some (kill p))
    /\ (signalCode p <> None ->
        m' = m /\ console w' = console w ++ [(WARN, "Module wasn't running, cannot stop.")])
    /\ exists w'', Module_stop w' m' = Ok (w'', m').
Proof.
  intros Hp. destruct m as [nm pth ty pr]. simpl in Hp. subst pr.
  unfold Module_stop, Module_running. simpl.
  destruct (signalCode p) as [s|] eqn:Hs.
  - eexists _, _. split; [reflexivity|]. simpl. rewrite Hs.
    split; [apply same_identity_refl|]. split; [reflexivity|].
    split; [discriminate|]. split; [intros _; now split|]. eauto.
  - assert (Hk : signalCode (kill p) = None)
      by (unfold kill; destruct (alive p); simpl; assumption).
    eexists _, _. split; [reflexivity|]. simpl. rewrite Hk, kill_twice.
    split; [now repeat split|]. split; [reflexivity|].
    split; [intros _; now split|]. split; [congruence|]. eauto.
Qed.

Lemma stop_with_handle_witness :
  exists w' m',
    Module_stop fresh_world (snd (Module_start false Launched fresh_world bundled_server))
    = Ok (w', m')
    /\ Module_running m' = Ok true.
Proof.
  destruct (stop_with_handle fresh_world
              (snd (Module_start false Launched fresh_world bundled_server))
              (mkChild "/app/modules/aw-server" [] true None None false) eq_refl)
    as (w' & m' & Hstop & _ & Hrun & _).
  exists w', m'. split; [exact Hstop | exact Hrun].
Defined.

Lemma toggle_twice_with_handle_witness :
  Module_running
    (snd (run false [Toggle Launched; Notify (KilledBy "SIGTERM"); Toggle Launched]
              (fresh_world, snd (Module_start false Launched fresh_world bundled_server))))
  = Ok true.
Proof.
  apply (proj1 (toggle_twice_with_handle false fresh_world
                  (snd (Module_start false Launched fresh_world bundled_server))
                  (mkChild "/app/modules/aw-server" [] true None None false) eq_refl)).
  reflexivity.
Defined.

Lemma refs_In ms i m : In (i, m) (refs ms) -> ms !! i = Some m.
Proof.
  unfold refs. intros H.
  apply list_elem_of_In, elem_of_lookup_imap in H as (j & y & [= -> ->] & Hy). exact Hy.
Qed.

(** What [resolve] picks is a module of the registry, called [nm]. *)
Lemma resolve_sound ms nm i m :
  resolve ms nm = Some (i, m) -> ms !! i = Some m /\ name m = nm.
Proof.
  unfold resolve, find_named.
  destruct (List.find _ (List.filter _ (refs ms))) as [r|] eqn:E.
  - intros [= ->]. apply find_some in E as [Hin Hn]. apply filter_In in Hin as [Hin _].
    split; [now apply refs_In | now apply String.eqb_eq in Hn].
  - intros H. apply find_some in H as [Hin Hn].
    split; [now apply refs_In | now apply String.eqb_eq in Hn].
Qed.

Lemma Module_start_identity testing o w m :
  same_identity m (snd (Module_start testing o w m)).
Proof. destruct o; simpl; now repeat split. Qed.

Lemma insert_same_identity ms i m m' :
  ms !! i = Some m -> same_identity m m' ->
  Forall2 same_identity ms (<[i := m']> ms).
Proof.
  revert i. induction ms as [|x r IH]; intros i Hi Hid; [constructor|].
  destruct i as [|i]; simpl in *.
  - injection Hi as ->. constructor; [assumption|].
    clear. induction r; constructor; [apply same_identity_refl | assumption].
  - constructor; [apply same_identity_refl | now apply IH].
Qed.

Lemma Forall2_same_identity_refl ms : Forall2 same_identity ms ms.
Proof. induction ms; constructor; [apply same_identity_refl | assumption]. Qed.

Lemma Forall2_same_identity_trans a b c :
  Forall2 same_identity a b -> Forall2 same_identity b c -> Forall2 same_identity a c.
Proof.
  intros Hab. revert c. induction Hab as [|x y l l' (H1 & H2 & H3) _ IH]; intros c Hbc;
    inversion Hbc as [|? z ? l'' (H4 & H5 & H6) Hrest]; subst; constructor.
  - repeat split; congruence.
  - now apply IH.
Qed.

(** One call of [start] on an initialised registry. *)
Lemma Manager_start_effect testing launch nm w ms auto :
  exists w' ms',
    Manager_start testing launch nm (w, mkManager (Some ms) auto)
    = Ok (w', mkManager (Some ms') auto)
    /\ Forall2 same_identity ms ms'
    /\ (ms' = ms
        \/ exists i m, ms !! i = Some m /\ name m = nm
                       /\ ms' = <[i := snd (Module_start testing (launch (path m)) w m)]> ms).
Proof.
  unfold Manager_start. simpl. destruct (resolve ms nm) as [[i m]|] eqn:E.
  - apply resolve_sound in E as [Hi Hn].
    destruct (Module_start testing (launch (path m)) w m) as [w' m'] eqn:Es.
    eexists _, _. split; [reflexivity|]. split.
    + apply (insert_same_identity ms i m m' Hi).
      replace m' with (snd (Module_start testing (launch (path m)) w m)) by now rewrite Es.
      apply Module_start_identity.
    + right. exists i, m. rewrite Es. now repeat split.
  - eexists _, _. split; [reflexivity|]. split;
      [apply Forall2_same_identity_refl | now left].
Qed.

(** X13: on an initialised registry [start(name)] never throws and changes
    at most one entry, which is then called [name]: every other entry is
    left exactly as it was, and no entry is added, removed, moved, renamed
    or given another path or origin. *)
Theorem start_changes_one_entry testing launch nm w ms auto :
  exists w' ms',
    Manager_start testing launch nm (w, mkManager (Some ms) auto)
    = Ok (w', mkManager (Some ms') auto)
    /\ Forall2 same_identity ms ms'
    /\ (forall j m, ms !! j = Some m -> name m <> nm -> ms' !! j = Some m)
    /\ exists i, forall j, j <> i -> ms' !! j = ms !! j.
Proof.
  destruct (Manager_start_effect testing launch nm w ms auto)
    as (w' & ms' & Heq & Hid & [-> | (i & m & Hi & Hn & ->)]);
    exists w'; eexists; (split; [exact Heq|]); (split; [exact Hid|]); split.
  - intros j m Hj _. exact Hj.
  - exists 0. reflexivity.
  - intros j m' Hj Hne. rewrite list_lookup_insert_ne; [exact Hj|].
    intros <-. congruence.
  - exists i. intros j Hne. now rewrite list_lookup_insert_ne.
Qed.

(** X14: [autostart] on an initialised registry leaves the registry with
    the same modules in the same places, name, path and origin unchanged,
    and the list of names to autostart as it was; only process handles
    change. *)
Theorem autostart_keeps_registry testing launch w ms auto :
  exists w' ms' j,
    Manager_autostart testing launch (w, mkManager (Some ms) auto)
    = (w', mkManager (Some ms') auto, j, true)
    /\ Forall2 same_identity ms ms'.
Proof.
  set (I := fun st : World * Manager =>
              exists ms', snd st = mkManager (Some ms') auto /\ Forall2 same_identity ms ms').
  assert (Hcall : forall n st, I st ->
            exists st', Manager_start testing launch n st = Ok st' /\ I st').
  { intros n [w0 mgr0] (ms0 & Hm & Hid). simpl in Hm. subst mgr0.
    destruct (Manager_start_effect testing launch n w0 ms0 auto)
      as (w1 & ms1 & Heq & Hid1 & _).
    eexists. split; [exact Heq|]. exists ms1. split; [reflexivity|].
    eapply Forall2_same_identity_trans; eassumption. }
  unfold Manager_autostart. simpl to_autostart.
  destruct (length auto =? 0) eqn:Elen.
  { eexists _, ms, _. split; [reflexivity | apply Forall2_same_identity_refl]. }
  set (w1 := say LOG _ w).
  destruct (await_all (Manager_start testing launch) Manager_start_awaits
                      (List.filter is_server auto)
                      (w1, mkManager (Some ms) auto)) as [[st1 j1] ok1] eqn:E1.
  destruct (await_all_fulfilled (Manager_start testing launch) Manager_start_awaits I Hcall
              _ (w1, mkManager (Some ms) auto) _ _ _
              (ex_intro _ ms (conj eq_refl (Forall2_same_identity_refl ms))) E1)
    as (-> & HI1).
  destruct (await_all (Manager_start testing launch) Manager_start_awaits
                      (List.filter (fun nm => negb (is_server nm)) auto) st1)
    as [[[w2 mgr2] j2] ok2] eqn:E2.
  destruct (await_all_fulfilled (Manager_start testing launch) Manager_start_awaits I Hcall
              _ _ _ _ _ HI1 E2)
    as (-> & ms2 & Hm2 & Hid2).
  simpl in Hm2. subst mgr2. exists w2, ms2, (j1 ++ j2). now split.
Qed.

Lemma call_each_refused {S} (call : string -> S -> result S) awaits (s : S) names :
  (forall n, exists e, call n s = Throw e) ->
  call_each call awaits names s
  = (s, flat_map (fun n => [Issued n; Refused n]) names, []).
Proof.
  intros Hthrow. induction names as [|n rest IH]; simpl; [reflexivity|].
  destruct (Hthrow n) as [e ->]. now rewrite IH.
Qed.

Lemma refused_not_fulfilled names :
  names <> [] ->
  forallb fulfilled (flat_map (fun n => [Issued n; Refused n]) names ++ []) = false.
Proof. destruct names; [congruence | reflexivity]. Qed.

Lemma no_server_all_others auto :
  List.filter is_server auto = [] ->
  List.filter (fun nm => negb (is_server nm)) auto = auto.
Proof.
  induction auto as [|a r IH]; simpl; [reflexivity|].
  destruct (is_server a); simpl; [discriminate|]. intros H. now rewrite IH.
Qed.

(** X15: [autostart] before [init], with names to start, fails: the promise
    it returns is rejected, nothing is started and no promise of [start]
    is fulfilled; the manager is left as it was and only the line
    announcing the names has been printed. *)
Theorem autostart_before_init testing launch w auto :
  auto <> [] ->
  exists j,
    Manager_autostart testing launch (w, new_Manager auto)
    = (mkWorld (console w ++ [(LOG, "Autostarting modules: " +:+ join_comma auto)])
               (uncaught w),
       new_Manager auto, j, false)
    /\ Forall (fun k => fulfilled k = false \/ exists n, k = Issued n) j.
Proof.
  intros Hne. unfold Manager_autostart, new_Manager. simpl to_autostart.
  destruct (length auto =? 0) eqn:Elen.
  { apply Nat.eqb_eq, nil_length_inv in Elen. congruence. }
  assert (Hthrow : forall (st : World) n,
            exists e, Manager_start testing launch n (st, mkManager None auto) = Throw e)
    by (intros; eexists; reflexivity).
  assert (Hmarks : forall names,
            Forall (fun k => fulfilled k = false \/ exists n, k = Issued n)
                   (flat_map (fun n => [Issued n; Refused n]) names ++ [])).
  { intros names. rewrite app_nil_r. apply List.Forall_forall. intros k Hk.
    apply in_flat_map in Hk as (n & _ & [<-|[<-|[]]]); eauto. }
  unfold await_all. rewrite call_each_refused by apply Hthrow.
  destruct (List.filter is_server auto) as [|a r] eqn:Es.
  - simpl. rewrite call_each_refused by apply Hthrow.
    rewrite (no_server_all_others auto Es), refused_not_fulfilled by assumption.
    eexists. split; [reflexivity | apply (Hmarks auto)].
  - rewrite refused_not_fulfilled by discriminate.
    eexists. split; [reflexivity | apply (Hmarks (a :: r))].
Qed.

Lemma autostart_before_init_witness :
  exists j,
    Manager_autostart false (fun _ => Launched) (fresh_world, new_Manager ["aw-qt"])
    = (mkWorld [(LOG, "Autostarting modules: aw-qt")] [], new_Manager ["aw-qt"], j, false)
    /\ Forall (fun k => fulfilled k = false \/ exists n, k = Issued n) j.
Proof.
  apply (autostart_before_init false (fun _ => Launched) fresh_world ["aw-qt"]).
  discriminate.
Defined.

(** ** Names *)

Lemma prefix_spec a s : String.prefix a s = true <-> exists b, s = a +:+ b.
Proof.
  revert s. induction a as [|c a IH]; intros s.
  - split; [intros _; now exists s | intros _; now destruct s].
  - destruct s as [|c' s]; simpl.
    + split; [discriminate | intros [b Hb]; discriminate].
    + destruct (ascii_dec c c') as [->|Hne].
      * rewrite IH. split; intros [b Hb]; exists b.
        -- change (String c' s = String c' (a +:+ b)). now rewrite Hb.
        -- change (String c' s = String c' (a +:+ b)) in Hb. now injection Hb.
      * split; [discriminate|]. intros [b Hb].
        change (String c' s = String c (a +:+ b)) in Hb. congruence.
Qed.

Lemma includes_cons c s sub :
  includes (String c s) sub = String.prefix sub (String c s) || includes s sub.
Proof. reflexivity. Qed.

Lemma includes_nil sub : includes "" sub = String.prefix sub "" || false.
Proof. reflexivity. Qed.

Lemma includes_spec s sub :
  includes s sub = true <-> exists a b, s = a +:+ sub +:+ b.
Proof.
  induction s as [|c s IH].
  - rewrite includes_nil, orb_true_iff, prefix_spec. split.
    + intros [[b Hb]|H]; [now exists "", b | discriminate].
    + intros (a & b & Hab). left. destruct a as [|c a]; [now exists b | discriminate].
  - rewrite includes_cons, orb_true_iff, prefix_spec, IH. split.
    + intros [[b Hb]|(a & b & Hab)]; [now exists "", b|].
      exists (String c a), b. change (String c s = String c (a +:+ sub +:+ b)).
      now rewrite Hab.
    + intros (a & b & Hab). destruct a as [|c' a]; [left; now exists b|].
      right. exists a, b. change (String c s = String c' (a +:+ sub +:+ b)) in Hab.
      now injection Hab.
Qed.

(** X16: a file name passes the filter of the scans exactly when
    [aw-server] or [aw-watcher] occurs somewhere in it, and [autostart]
    takes a name for a server exactly when [aw-server] occurs somewhere in
    it; so every name started in the server phase is a name a scan could
    have reported, and a name such as [aw-watcher-aw-server] is started
    with the servers. *)
Theorem names_match_anywhere nm :
  (matches_pattern nm = true
   <-> exists a b, nm = a +:+ "aw-server" +:+ b \/ nm = a +:+ "aw-watcher" +:+ b)
  /\ (is_server nm = true <-> exists a b, nm = a +:+ "aw-server" +:+ b)
  /\ (is_server nm = true -> matches_pattern nm = true).
Proof.
  unfold matches_pattern, is_server. rewrite orb_true_iff, !includes_spec. repeat split.
  - intros [(a & b & H)|(a & b & H)]; exists a, b; tauto.
  - intros (a & b & [H|H]); [left | right]; eauto.
  - tauto.
  - tauto.
  - intros H. left. exact H.
Qed.

Lemma names_match_anywhere_witness :
  matches_pattern "aw-watcher-aw-server" = true.
Proof.
  apply (proj2 (proj2 (names_match_anywhere "aw-watcher-aw-server"))). reflexivity.
Defined.

(** ** C3: the two phases of [autostart] *)

Lemma find_same_pick (p : Module_ -> bool) :
  (forall m m', same_identity m m' -> p m' = p m) ->
  forall ms ms', Forall2 same_identity ms ms' ->
  forall k,
    same_pick (List.find (fun r => p (snd r)) (imap (fun j m => (k + j, m)) ms))
              (List.find (fun r => p (snd r)) (imap (fun j m => (k + j, m)) ms')).
Proof.
  intros Hp ms ms' H. induction H as [|x y l l' Hxy _ IH]; intros k; [exact I|].
  rewrite !imap_cons. simpl. rewrite (Hp x y Hxy). destruct (p x).
  - destruct Hxy as (Hn & Hpa & Hty). simpl. now repeat split.
  - rewrite (imap_ext _ (fun j m => (S k + j, m)) l),
            (imap_ext _ (fun j m => (S k + j, m)) l');
      [apply IH | |]; intros j m _; simpl; f_equal; lia.
Qed.

Lemma find_refs_same_pick (p : Module_ -> bool) ms ms' :
  (forall m m', same_identity m m' -> p m' = p m) ->
  Forall2 same_identity ms ms' ->
  same_pick (List.find (fun r => p (snd r)) (refs ms))
            (List.find (fun r => p (snd r)) (refs ms')).
Proof. intros Hp H. exact (find_same_pick p Hp ms ms' H 0). Qed.

(** [resolve] looks at names and origins only. *)
Lemma resolve_same_pick ms ms' nm :
  Forall2 same_identity ms ms' ->
  same_pick (resolve ms nm) (resolve ms' nm).
Proof.
  intros H.
  pose proof (find_refs_same_pick
                (fun m => ModuleType_eqb (type m) bundled && String.eqb (name m) nm) ms ms') as H1.
  pose proof (find_refs_same_pick (fun m => String.eqb (name m) nm) ms ms') as H2.
  unfold resolve, find_named. rewrite !find_filter. cbv beta in *.
  specialize (H1 ltac:(intros m m' (Hn & _ & Hty); now rewrite Hn, Hty) H).
  specialize (H2 ltac:(intros m m' (Hn & _); now rewrite Hn) H).
  destruct (List.find _ (refs ms)) as [[i m]|], (List.find _ (refs ms')) as [[i' m']|];
    simpl in H1; try contradiction; [exact H1 | exact H2].
Qed.

Lemma Module_start_prints testing o w m :
  fst (Module_start testing o w m) = says (start_lines testing o m) w.
Proof.
  unfold Module_start, start_lines, say, says.
  destruct o; simpl; try reflexivity. now rewrite <- app_assoc.
Qed.

(** One call of [start] on a registry that has the identities of [ms]:
    what it prints and whether it suspends can be read off [ms]. *)
Lemma Manager_start_on testing launch ms ms' auto nm w :
  Forall2 same_identity ms ms' ->
  exists ms'',
    Manager_start testing launch nm (w, mkManager (Some ms') auto)
    = Ok (says (lines_of_start testing launch ms nm) w, mkManager (Some ms'') auto)
    /\ Forall2 same_identity ms ms''
    /\ Manager_start_awaits nm (w, mkManager (Some ms') auto) = known ms nm.
Proof.
  intros H. pose proof (resolve_same_pick ms ms' nm H) as Hpick.
  unfold Manager_start, Manager_start_awaits, lines_of_start, known. simpl.
  destruct (resolve ms nm) as [[i m]|] eqn:E, (resolve ms' nm) as [[i' m']|] eqn:E';
    simpl in Hpick; try contradiction.
  - destruct Hpick as (-> & Hn & Hpa & Hty).
    apply resolve_sound in E' as [Hi' _].
    pose proof (Module_start_prints testing (launch (path m')) w m') as Hpr.
    pose proof (Module_start_identity testing (launch (path m')) w m') as Hid.
    destruct (Module_start testing (launch (path m')) w m') as [w1 m1]. simpl in Hpr, Hid.
    exists (<[i := m1]> ms'). repeat split.
    + rewrite Hpr, Hpa. unfold start_lines. now rewrite Hn.
    + eapply Forall2_same_identity_trans; [exact H|].
      now apply (insert_same_identity ms' i m' m1).
  - exists ms'. now repeat split.
Qed.

Lemma call_each_cons {S} (call : string -> S -> result S) awaits n rest s :
  call_each call awaits (n :: rest) s
  = match call n s with
    | Ok s' =>
        let '(s2, now, later) := call_each call awaits rest s' in
        if awaits n s then (s2, Issued n :: now, Settled n :: later)
        else (s2, Issued n :: Settled n :: now, later)
    | Throw _ =>
        let '(s2, now, later) := call_each call awaits rest s in
        (s2, Issued n :: Refused n :: now, later)
    end.
Proof. reflexivity. Qed.

Lemma perform_cons testing launch n rest st :
  perform testing launch (n :: rest) st
  = perform testing launch rest
      match Manager_start testing launch n st with
      | Ok st' => st'
      | Throw _ => st
      end.
Proof. reflexivity. Qed.

(** One phase on an initialised registry: the calls are made one after the
    other in list order, each printing its lines, and the journal is the
    one of [phase_journal]. *)
Lemma phase_run testing launch ms auto names : forall w ms',
  Forall2 same_identity ms ms' ->
  exists w'' ms'',
    call_each (Manager_start testing launch) Manager_start_awaits names
              (w, mkManager (Some ms') auto)
    = (perform testing launch names (w, mkManager (Some ms') auto),
       flat_map (fun n => if known ms n then [Issued n] else [Issued n; Settled n]) names,
       map Settled (List.filter (known ms) names))
    /\ perform testing launch names (w, mkManager (Some ms') auto)
       = (w'', mkManager (Some ms'') auto)
    /\ console w'' = console w ++ flat_map (lines_of_start testing launch ms) names
    /\ uncaught w'' = uncaught w
    /\ Forall2 same_identity ms ms''.
Proof.
  induction names as [|n rest IH]; intros w ms' H.
  - exists w, ms'. simpl. rewrite app_nil_r. now repeat split.
  - destruct (Manager_start_on testing launch ms ms' auto n w H) as (ms1 & Hst & H1 & Haw).
    destruct (IH (says (lines_of_start testing launch ms n) w) ms1 H1)
      as (w2 & ms2 & Hce & Hpf & Hco & Hun & H2).
    exists w2, ms2.
    assert (Hp : perform testing launch (n :: rest) (w, mkManager (Some ms') auto)
                 = perform testing launch rest
                     (says (lines_of_start testing launch ms n) w, mkManager (Some ms1) auto)).
    { rewrite perform_cons. now rewrite Hst. }
    rewrite Hp. repeat split; try assumption.
    + rewrite call_each_cons, Hst, Hce, Haw.
      destruct (known ms n) eqn:K; simpl; rewrite K; reflexivity.
    + rewrite Hco. simpl. now rewrite <- app_assoc.
Qed.

Lemma phase_journal_fulfilled ms names :
  forallb fulfilled (phase_journal ms names) = true.
Proof.
  unfold phase_journal. rewrite forallb_app. apply andb_true_iff. split.
  - induction names as [|n rest IH]; simpl; [reflexivity|].
    destruct (known ms n); simpl; exact IH.
  - induction (List.filter (known ms) names); simpl; auto.
Qed.

(** C3: in every run of [autostart], every call of [start] for a name
    without [aw-server] in it comes after the call and the settlement of
    [start] for every name with it.  On an initialised registry, with
    names to start, the run is the calls of [start] themselves: first
    [start] for every server name, one after the other in list order, then
    [start] for every other name in list order, so that everything the
    server starts print precedes everything the other starts print; in
    each phase every promise is fulfilled (that of an unknown name as soon
    as its call returns, those of the known names after all the calls of
    the phase) before the next phase makes its first call, and none is
    rejected. *)
Theorem autostart_servers_first testing launch w mgr :
  let r := Manager_autostart testing launch (w, mgr) in
  let servers := List.filter is_server (to_autostart mgr) in
  let others := List.filter (fun nm => negb (is_server nm)) (to_autostart mgr) in
  let announced :=
    say LOG ("Autostarting modules: " +:+ join_comma (to_autostart mgr)) w in
  phases_ordered (journal_of r)
  /\ (forall ms,
        modules mgr = Some ms ->
        to_autostart mgr <> [] ->
        fst (fst r)
        = perform testing launch others (perform testing launch servers (announced, mgr))
        /\ console (fst (fst (fst r)))
           = console announced
             ++ flat_map (lines_of_start testing launch ms) servers
             ++ flat_map (lines_of_start testing launch ms) others
        /\ journal_of r = phase_journal ms servers ++ phase_journal ms others
        /\ snd r = true).
Proof.
  cbv zeta. split.
  - unfold Manager_autostart, journal_of.
    destruct (length (to_autostart mgr) =? 0); [intros i k n mk Hi; discriminate|].
    set (w1 := say LOG _ w).
    destruct (await_all (Manager_start testing launch) Manager_start_awaits
                        (List.filter is_server (to_autostart mgr)) (w1, mgr))
      as [[st1 j1] ok1] eqn:E1.
    assert (F1 : Forall (fun k => is_server (subject k) = true) j1).
    { apply (subjects_Forall (fun n => is_server n = true) _ _
               (await_all_subjects _ _ _ _ _ _ _ E1)).
      intros n Hn. now apply filter_In in Hn. }
    destruct (await_all (Manager_start testing launch) Manager_start_awaits
                        (List.filter (fun nm => negb (is_server nm)) (to_autostart mgr)) st1)
      as [[st2 j2] ok2] eqn:E2.
    assert (F2 : Forall (fun k => is_server (subject k) = false) j2).
    { apply (subjects_Forall (fun n => is_server n = false) _ _
               (await_all_subjects _ _ _ _ _ _ _ E2)).
      intros n Hn. apply filter_In in Hn as [_ Hn]. now apply negb_true_iff in Hn. }
    destruct ok1; simpl.
    + now apply phases_ordered_app.
    + rewrite <- (app_nil_r j1). apply phases_ordered_app; [assumption | constructor].
  - intros ms Hms Hne. destruct mgr as [mods auto]. simpl in Hms, Hne. subst mods.
    unfold Manager_autostart, journal_of, await_all. simpl to_autostart.
    destruct (length auto =? 0) eqn:Elen.
    { apply Nat.eqb_eq, nil_length_inv in Elen. congruence. }
    set (w1 := say LOG _ w).
    destruct (phase_run testing launch ms auto (List.filter is_server auto) w1 ms
                (Forall2_same_identity_refl ms))
      as (w2 & ms2 & Hce1 & Hpf1 & Hco1 & _ & H2).
    rewrite Hce1.
    fold (phase_journal ms (List.filter is_server auto)).
    rewrite phase_journal_fulfilled, Hpf1.
    destruct (phase_run testing launch ms auto
                (List.filter (fun nm => negb (is_server nm)) auto) w2 ms2 H2)
      as (w3 & ms3 & Hce2 & Hpf2 & Hco2 & _ & _).
    rewrite Hce2.
    fold (phase_journal ms (List.filter (fun nm => negb (is_server nm)) auto)).
    rewrite phase_journal_fulfilled, Hpf2. simpl.
    repeat split. now rewrite Hco2, Hco1, <- app_assoc.
Qed.

Lemma autostart_servers_first_witness :
  journal_of (Manager_autostart false (fun _ => Launched)
                (fresh_world,
                 mkManager (Some both_origins) ["aw-watcher-afk"; "aw-qt"; "aw-server"]))
  = [Issued "aw-server"; Settled "aw-server";
     Issued "aw-watcher-afk"; Issued "aw-qt"; Settled "aw-qt"; Settled "aw-watcher-afk"]
  /\ console (fst (fst (fst (Manager_autostart false (fun _ => Launched)
                (fresh_world,
                 mkManager (Some both_origins) ["aw-watcher-afk"; "aw-qt"; "aw-server"])))))
     = [(LOG, "Autostarting modules: aw-watcher-afk,aw-qt,aw-server");
        (LOG, "Starting aw-server");
        (LOG, "Starting aw-watcher-afk");
        (ERROR, "Module aw-qt could not be started")].
Proof.
  destruct (proj2 (autostart_servers_first false (fun _ => Launched) fresh_world
                     (mkManager (Some both_origins)
                                ["aw-watcher-afk"; "aw-qt"; "aw-server"]))
                  both_origins eq_refl ltac:(discriminate))
    as (_ & Hconsole & Hjournal & _).
  split; [exact Hjournal | exact Hconsole].
Defined.

(** ** The registry [init] builds *)

Lemma clean_no_late sch dir n ty :
  clean n = true -> late (discoverModules sch dir n ty) = [].
Proof.
  destruct n as [x|files|e| |e]; intros Hclean;
    try (simpl; repeat match goal with e : errno |- _ => destruct e end; reflexivity).
  rewrite discoverModules_Dir.
  destruct (after_all_fulfilled (by_completion (callbacks sch dir ty files))) as [_ ->];
    [|reflexivity].
  intros e. apply tidy_no_rejection. now apply clean_tidy.
Qed.

(** X7: the registry [init] builds on a new manager is what the bundled scan
    returned, then those pushes of callbacks that outlived a failed bundled
    scan which have landed when [init] reads the array, then the system
    modules; when no [stat] fails under the bundle directory it is exactly
    the modules the bundled scan returned followed by the system modules.
    Every module before the system modules has type [bundled], every system
    module type [system], none has a process yet, and the names to
    autostart are untouched. *)
Theorem registry_bundled_then_system hst sch w auto :
  let mgr := snd (Manager_init hst sch (w, new_Manager auto)) in
  let found := discoverBundledModules hst sch in
  let sys := fst (discoverSystemModules hst sch) in
  modules mgr
  = Some ((returned found ++ firstn (late_landed sch) (late found)) ++ sys)
  /\ (clean (disk hst (bundlepath hst)) = true ->
      modules mgr = Some (returned found ++ sys))
  /\ Forall (fun m => type m = bundled /\ process m = None)
            (returned found ++ late found)
  /\ Forall (fun m => type m = system /\ process m = None) sys
  /\ to_autostart mgr = auto.
Proof.
  cbv zeta. unfold Manager_init, new_Manager, discoverBundledModules. simpl.
  split; [reflexivity|]. split; [|repeat split].
  - intros Hclean.
    rewrite (clean_no_late sch (bundlepath hst) _ bundled Hclean), firstn_nil.
    now rewrite app_nil_r.
  - pose proof (discoverModules_genuine (disk hst (bundlepath hst)) sch (bundlepath hst) bundled) as G.
    eapply List.Forall_impl; [|exact G]. intros m (_ & _ & _ & _ & Hty & Hpr). now split.
  - apply List.Forall_forall. intros m Hin.
    apply system_modules_In in Hin as (p & Hp & Hm).
    pose proof (discoverModules_genuine (disk hst p) sch p system) as G.
    rewrite List.Forall_forall in G.
    destruct (G m) as (_ & _ & _ & _ & Hty & Hpr); [apply in_or_app; now left | now split].
Qed.

Lemma registry_bundled_then_system_witness :
  modules (snd (Manager_init bundle_and_path server_last (fresh_world, new_Manager [])))
  = Some [new_Module "aw-watcher-afk" "/app/modules/aw-watcher-afk/aw-watcher-afk" bundled;
          new_Module "aw-server" "/app/modules/aw-server" bundled;
          new_Module "aw-watcher-window" "/usr/bin/aw-watcher-window" system].
Proof.
  rewrite (proj1 (proj2 (registry_bundled_then_system bundle_and_path server_last
                           fresh_world []))); reflexivity.
Defined.
